(** * heygen-avatar: the retrieval-augmented turn pipeline

    A shallow embedding of the chunker ([splitText] of the ingestion
    script), the retrieval endpoint ([POST] of
    [app/api/knowledge-search/route.ts]), the text-mode sender
    ([handleSend] of [TextInput.tsx]) and the voice-mode event handlers
    ([startSessionV2] of the interactive-avatar component), followed by the
    properties of the specification that concern them. *)

From Stdlib Require Import List ZArith NArith QArith Bool Lia Sorted.
From Stdlib Require Import DecimalNat FinFun.
Import ListNotations.

Local Open Scope Z_scope.

(* ================================================================== *)
(** ** JavaScript values used by the program *)
(* ================================================================== *)

Module JS.

(** A JavaScript string is a sequence of UTF-16 code units; [length],
    [slice] and [trim] all work on code units. *)
Definition jsstring := list N.

Definition str_eqb (a b : jsstring) : bool :=
  if list_eq_dec N.eq_dec a b then true else false.

(** Truthiness of a string: every string but the empty one. *)
Definition truthy (s : jsstring) : bool :=
  match s with [] => false | _ :: _ => true end.

(** [a || b] on strings. *)
Definition or_else (a b : jsstring) : jsstring :=
  if truthy a then a else b.

(** ECMAScript WhiteSpace and LineTerminator code points, the set that
    [String.prototype.trim] strips.  All of them lie in the Basic
    Multilingual Plane, hence are single code units. *)
Definition is_space (c : N) : bool :=
  (N.eqb c 0x09 || N.eqb c 0x0A || N.eqb c 0x0B || N.eqb c 0x0C ||
   N.eqb c 0x0D || N.eqb c 0x20 || N.eqb c 0xA0 || N.eqb c 0x1680 ||
   (N.leb 0x2000 c && N.leb c 0x200A) ||
   N.eqb c 0x2028 || N.eqb c 0x2029 || N.eqb c 0x202F ||
   N.eqb c 0x205F || N.eqb c 0x3000 || N.eqb c 0xFEFF)%bool.

Fixpoint trimStart (s : jsstring) : jsstring :=
  match s with
  | [] => []
  | c :: r => if is_space c then trimStart r else s
  end.

Definition trimEnd (s : jsstring) : jsstring := rev (trimStart (rev s)).

(** [s.trim()] *)
Definition trim (s : jsstring) : jsstring := trimEnd (trimStart s).

Definition len (s : jsstring) : Z := Z.of_nat (length s).

(** [s.slice(start, end)] for integer arguments: a negative index counts
    from the end of the string, both indices are clamped to
    [0 .. s.length], and an empty span gives the empty string. *)
Definition slice (s : jsstring) (start stop : Z) : jsstring :=
  let from := if start <? 0 then Z.max (len s + start) 0
              else Z.min start (len s) in
  let to := if stop <? 0 then Z.max (len s + stop) 0
            else Z.min stop (len s) in
  firstn (Z.to_nat (to - from)) (skipn (Z.to_nat from) s).

(** [arr.join(sep)] on an array of strings. *)
Fixpoint join (sep : jsstring) (parts : list jsstring) : jsstring :=
  match parts with
  | [] => []
  | [p] => p
  | p :: rest => p ++ sep ++ join sep rest
  end.

(** Decimal rendering of a non-negative integer, as template literals
    print it. *)
Fixpoint digits (d : Decimal.uint) : jsstring :=
  match d with
  | Decimal.Nil => []
  | Decimal.D0 r => 48%N :: digits r
  | Decimal.D1 r => 49%N :: digits r
  | Decimal.D2 r => 50%N :: digits r
  | Decimal.D3 r => 51%N :: digits r
  | Decimal.D4 r => 52%N :: digits r
  | Decimal.D5 r => 53%N :: digits r
  | Decimal.D6 r => 54%N :: digits r
  | Decimal.D7 r => 55%N :: digits r
  | Decimal.D8 r => 56%N :: digits r
  | Decimal.D9 r => 57%N :: digits r
  end.

Definition of_nat (n : nat) : jsstring := digits (Nat.to_uint n).

(** A thrown value: an [Error] object with its message, or anything
    else. *)
Inductive thrown :=
| ErrorObject (message : jsstring)
| NotAnError.

(** How the evaluation of a function body ends. *)
Inductive completion (A : Type) :=
| Normal (value : A)
| Throw (e : thrown).
Arguments Normal {A} value.
Arguments Throw {A} e.

(** Empty or made of white space only. *)
Definition blank (s : jsstring) : bool := forallb is_space s.

(** No white space anywhere. *)
Definition solid (s : jsstring) : bool :=
  forallb (fun c => negb (is_space c)) s.

(** [c] occurs in [s] as a run of consecutive code units. *)
Definition infix (c s : jsstring) : Prop :=
  exists before after, s = before ++ c ++ after.

End JS.

Import JS.

(* ================================================================== *)
(** ** The chunker: [splitText] of the ingestion script *)
(* ================================================================== *)

Module Chunker.

Definition CHUNK_SIZE : Z := 100.
Definition CHUNK_OVERLAP : Z := 20.

(** The [while (i < text.length)] loop of [splitText], with [i] and
    [chunks] as the loop state.  The loop need not terminate, so the
    model counts iterations: [None] says that [fuel] tests of the loop
    condition were not enough to leave the loop.  The body has no
    [throw]; a completion is always [Normal]. *)
Fixpoint splitText_loop (fuel : nat) (text : jsstring) (size overlap : Z)
    (i : Z) (chunks : list jsstring) : option (completion (list jsstring)) :=
  match fuel with
  | O => None
  | S fuel' =>
      if i <? len text then
        let chunk := trim (slice text i (i + size)) in
        let chunks' := if truthy chunk then chunks ++ [chunk] else chunks in
        splitText_loop fuel' text size overlap (i + (size - overlap)) chunks'
      else Some (Normal chunks)
  end.

(** [splitText(text, size, overlap)] run for at most [fuel] loop tests;
    [size] and [overlap] are integers, as in every call of the script. *)
Definition splitText (fuel : nat) (text : jsstring) (size overlap : Z)
  : option (completion (list jsstring)) :=
  splitText_loop fuel text size overlap 0 [].

(** The call of [main]: [splitText(text, CHUNK_SIZE, CHUNK_OVERLAP)]. *)
Definition splitText_main (fuel : nat) (text : jsstring) :=
  splitText fuel text CHUNK_SIZE CHUNK_OVERLAP.

(** Short texts to run the chunker on. *)
Definition text_a : jsstring := [97]%N.          (* "a" *)
Definition text_ab : jsstring := [97; 98]%N.     (* "ab" *)
Definition text_b : jsstring := [98]%N.          (* "b" *)
Definition text_spaces : jsstring := [32; 32]%N. (* two spaces *)

(** Putting chunks back together: the first chunk, then every later chunk
    without the [overlap] code units it shares with the one before. *)
Definition rejoin (overlap : nat) (chunks : list jsstring) : jsstring :=
  match chunks with
  | [] => []
  | c :: later => c ++ concat (map (skipn overlap) later)
  end.

End Chunker.

(* ================================================================== *)
(** ** The retrieval endpoint: [POST] of [knowledge-search/route.ts] *)
(* ================================================================== *)

Module KnowledgeSearch.

(** String literals of the handler, as code units. *)
Definition msg_keys_missing : jsstring :=   (* 'API keys not configured' *)
  [65; 80; 73; 32; 107; 101; 121; 115; 32; 110; 111; 116; 32; 99; 111; 110;
   102; 105; 103; 117; 114; 101; 100]%N.
Definition msg_unknown_error : jsstring :=  (* 'Unknown error' *)
  [85; 110; 107; 110; 111; 119; 110; 32; 101; 114; 114; 111; 114]%N.
Definition msg_not_a_function : jsstring := (* 'query.trim is not a function' *)
  [113; 117; 101; 114; 121; 46; 116; 114; 105; 109; 32; 105; 115; 32; 110;
   111; 116; 32; 97; 32; 102; 117; 110; 99; 116; 105; 111; 110]%N.
(** The message of the engine's TypeError for [data[0].embedding] on an
    empty [data]:
    "Cannot read properties of undefined (reading 'embedding')". *)
Definition msg_undefined_property : jsstring :=
  [67; 97; 110; 110; 111; 116; 32; 114; 101; 97; 100; 32; 112; 114; 111;
   112; 101; 114; 116; 105; 101; 115; 32; 111; 102; 32; 117; 110; 100; 101;
   102; 105; 110; 101; 100; 32; 40; 114; 101; 97; 100; 105; 110; 103; 32;
   39; 101; 109; 98; 101; 100; 100; 105; 110; 103; 39; 41]%N.
(** The message of the engine's TypeError for [body.query] on a [null]
    body: "Cannot read properties of null (reading 'query')". *)
Definition msg_null_property : jsstring :=
  [67; 97; 110; 110; 111; 116; 32; 114; 101; 97; 100; 32; 112; 114; 111;
   112; 101; 114; 116; 105; 101; 115; 32; 111; 102; 32; 110; 117; 108; 108;
   32; 40; 114; 101; 97; 100; 105; 110; 103; 32; 39; 113; 117; 101; 114;
   121; 39; 41]%N.
Definition str_unknown : jsstring :=        (* 'unknown' *)
  [117; 110; 107; 110; 111; 119; 110]%N.
Definition marker_open : jsstring :=        (* "\n\n【参考情報" *)
  [0x0A; 0x0A; 0x3010; 0x53C2; 0x8003; 0x60C5; 0x5831]%N.
Definition marker_close : jsstring :=       (* "】: " *)
  [0x3011; 0x3A; 0x20]%N.
Definition newline : jsstring := [0x0A]%N.

(** [process.env]: a key is a string or undefined. *)
Record env := {
  PINECONE_API_KEY : option jsstring;
  OPENAI_API_KEY : option jsstring
}.

(** [!key] *)
Definition missing (key : option jsstring) : bool :=
  match key with
  | None => true
  | Some k => negb (truthy k)
  end.

(** A property of the parsed request body: absent, a string, or any other
    JSON value, of which only the truthiness matters ([0], [false] and
    [null] are falsy; other numbers, [true], arrays and objects are
    truthy and have no [trim] method). *)
Inductive field :=
| Undefined
| Str (s : jsstring)
| Other (truthy : bool).

Definition field_truthy (f : field) : bool :=
  match f with
  | Undefined => false
  | Str s => truthy s
  | Other t => t
  end.

(** [a || b] *)
Definition field_or (a b : field) : field :=
  if field_truthy a then a else b.

(** What [body] holds once the inner [try] is over.  [body] keeps its
    initial [{}] when [request.text()] rejects, the text is empty or
    [JSON.parse] throws; a JSON [null] makes [body] null; any other JSON
    value is an object or a primitive whose [query] and [question]
    properties are read. *)
Inductive request_body :=
| NotParsed
| ParsedNull
| Parsed (query question : field).

Definition vector := list Q.

Record match_metadata := {
  md_text : option jsstring;
  md_source : option jsstring
}.

(** One element of [searchResults.matches]. *)
Record scored_match := {
  m_score : option Q;
  m_metadata : option match_metadata
}.

(** One element of [knowledgeItems] and of the [sources] array. *)
Record knowledge_item := {
  score : Q;
  text : jsstring;
  source : jsstring
}.

(** The JSON body and the HTTP status of the [Response]. *)
Record response := {
  status : Z;
  success : bool;
  context : jsstring;
  error : option jsstring;
  sources : option (list knowledge_item)
}.

(** Calls that leave the process. *)
Inductive netcall :=
| EmbeddingsCreate (input : jsstring)
| IndexQuery (v : vector) (topK : Z).

(** A computation of the handler's [try] block: how it ends and which
    network calls it made. *)
Definition M (A : Type) : Type := completion A * list netcall.

Definition ret {A} (a : A) : M A := (Normal a, []).
Definition raise {A} (e : thrown) : M A := (Throw e, []).
Definition bind {A B} (m : M A) (k : A -> M B) : M B :=
  match m with
  | (Normal a, calls) => let (r, calls') := k a in (r, calls ++ calls')
  | (Throw e, calls) => (Throw e, calls)
  end.

Notation "x <- m ;; k" := (bind m (fun x => k))
  (at level 61, m at next level, right associativity).

(** The double written [0.1]: doubles compare as the rationals they
    denote, and the literal denotes 3602879701896397 / 2^55. *)
Definition RELEVANCE_THRESHOLD : Q := 3602879701896397 # 36028797018963968.
Definition TOP_K : Z := 3.
Definition MAX_CONTEXT : Z := 500.

(** [a > b] on numbers. *)
Definition Qgtb (a b : Q) : bool := negb (Qle_bool a b).

(** [match.score || 0]: an absent score becomes [0] (and [0 || 0] is
    [0]). *)
Definition score_or_zero (s : option Q) : Q :=
  match s with Some q => q | None => 0%Q end.

(** [(match.metadata?.text as string) || ''] *)
Definition text_or_empty (md : option match_metadata) : jsstring :=
  match md with
  | Some d => match md_text d with Some t => or_else t [] | None => [] end
  | None => []
  end.

(** [(match.metadata?.source as string) || 'unknown'] *)
Definition source_or_unknown (md : option match_metadata) : jsstring :=
  match md with
  | Some d =>
      match md_source d with
      | Some s => or_else s str_unknown
      | None => str_unknown
      end
  | None => str_unknown
  end.

Definition to_item (m : scored_match) : knowledge_item :=
  {| score := score_or_zero (m_score m);
     text := text_or_empty (m_metadata m);
     source := source_or_unknown (m_metadata m) |}.

(** [`\n\n【参考情報${index + 1}】: ${item.text}`] *)
Definition render (index : nat) (item : knowledge_item) : jsstring :=
  marker_open ++ of_nat (index + 1) ++ marker_close ++ text item.

(** [arr.map((item, index) => f(index, item))], the index starting at
    [start]. *)
Fixpoint mapi_from {A B} (start : nat) (f : nat -> A -> B) (l : list A)
  : list B :=
  match l with
  | [] => []
  | x :: r => f start x :: mapi_from (S start) f r
  end.

Definition passes (item : knowledge_item) : bool :=
  Qgtb (score item) RELEVANCE_THRESHOLD.

(** [knowledgeItems.filter(..).map(..).join('\n')] *)
Definition build_context (items : list knowledge_item) : jsstring :=
  join newline (mapi_from 0 render (filter passes items)).

Section Handler.

(** The two external services, as the responses they give to this
    request: [openaiClient.embeddings.create] yields the embeddings of
    its [data] array or throws, [index.query] yields [matches] or
    throws. *)
Variable embeddings_create : jsstring -> completion (list vector).
Variable index_query : vector -> Z -> completion (list scored_match).

Definition call_embeddings (input : jsstring) : M (list vector) :=
  (embeddings_create input, [EmbeddingsCreate input]).

Definition call_query (v : vector) (topK : Z) : M (list scored_match) :=
  (index_query v topK, [IndexQuery v topK]).

(** [body.query || body.question || ''] *)
Definition read_query (body : request_body) : M field :=
  match body with
  | NotParsed => ret (Str [])
  | ParsedNull => raise (ErrorObject msg_null_property)
  | Parsed q qn => ret (field_or (field_or q qn) (Str []))
  end.

(** The receiver of [query.trim()]: only a string has the method. *)
Definition as_string (query : field) : M jsstring :=
  match query with
  | Str s => ret s
  | _ => raise (ErrorObject msg_not_a_function)
  end.

(** [embeddingResponse.data[0].embedding] *)
Definition first_embedding (data : list vector) : M vector :=
  match data with
  | v :: _ => ret v
  | [] => raise (ErrorObject msg_undefined_property)
  end.

Definition respond_empty (err : option jsstring) : response :=
  {| status := 200; success := false; context := []; error := err;
     sources := None |}.

(** The body of the outer [try]. *)
Definition try_block (e : env) (body : request_body) : M response :=
  if (missing (PINECONE_API_KEY e) || missing (OPENAI_API_KEY e))%bool
  then ret (respond_empty (Some msg_keys_missing))
  else
    q <- read_query body ;;
    query <- as_string q ;;
    if negb (truthy (trim query)) then ret (respond_empty None)
    else
      data <- call_embeddings query ;;
      queryVector <- first_embedding data ;;
      matches <- call_query queryVector TOP_K ;;
      let knowledgeItems := map to_item matches in
      let context := build_context knowledgeItems in
      ret {| status := 200; success := true;
             context := slice context 0 MAX_CONTEXT;
             error := None;
             sources := Some knowledgeItems |}.

(** [error instanceof Error ? error.message : 'Unknown error'] *)
Definition error_message (t : thrown) : jsstring :=
  match t with
  | ErrorObject m => m
  | NotAnError => msg_unknown_error
  end.

(** [POST(request)]: the response, and the network calls made on the
    way. *)
Definition POST (e : env) (body : request_body) : response * list netcall :=
  match try_block e body with
  | (Normal r, calls) => (r, calls)
  | (Throw t, calls) => (respond_empty (Some (error_message t)), calls)
  end.

End Handler.

(** Both API keys are set. *)
Definition configured (e : env) : Prop :=
  missing (PINECONE_API_KEY e) = false /\ missing (OPENAI_API_KEY e) = false.

(** The successful reply for the matches [matches]. *)
Definition found (matches : list scored_match) : response :=
  {| status := 200; success := true;
     context := slice (build_context (map to_item matches)) 0 MAX_CONTEXT;
     error := None;
     sources := Some (map to_item matches) |}.


(** A deployment with both keys set, a question, and services that answer
    or fail. *)
Definition ex_env : env :=
  {| PINECONE_API_KEY := Some [112; 99]%N;
     OPENAI_API_KEY := Some [115; 107]%N |}.

Definition ex_question : jsstring :=           (* "What is X?" *)
  [87; 104; 97; 116; 32; 105; 115; 32; 88; 63]%N.

Definition ex_answer : jsstring :=             (* "X is ..." *)
  [88; 32; 105; 115; 32; 46; 46; 46]%N.

Definition ex_file : jsstring := [120; 46; 116; 120; 116]%N.   (* "x.txt" *)

Definition ex_spaces : jsstring := [32; 32; 32]%N.             (* "   " *)

(** A store with one good match (score 0.82), one poor match (score
    0.05) and one match without score or metadata. *)
Definition ex_matches : list scored_match :=
  [ {| m_score := Some (82 # 100);
       m_metadata := Some {| md_text := Some ex_answer;
                             md_source := Some ex_file |} |};
    {| m_score := Some (5 # 100);
       m_metadata := Some {| md_text := Some ex_question;
                             md_source := None |} |};
    {| m_score := None; m_metadata := None |} ].

Definition ex_embed (_ : jsstring) : completion (list vector) :=
  Normal [[1 # 2; 1 # 3]%Q].

Definition ex_store (_ : vector) (_ : Z) : completion (list scored_match) :=
  Normal ex_matches.



Definition ex_embed_down (_ : jsstring) : completion (list vector) :=
  Throw (ErrorObject [53; 48; 51]%N).          (* "503" *)

Definition ex_store_down (_ : vector) (_ : Z)
  : completion (list scored_match) :=
  Throw NotAnError.

(** The module-level client handles: [null], or a client built from an
    API key. *)
Record clients := {
  pineconeClient : option jsstring;
  openaiClient : option jsstring
}.

Definition no_clients : clients :=
  {| pineconeClient := None; openaiClient := None |}.

(** [!handle && KEY]: the handle is null and the key is a non-empty
    string. *)
Definition to_create (handle key : option jsstring) : option jsstring :=
  match handle, key with
  | None, Some k => if truthy k then Some k else None
  | _, _ => None
  end.

(** [initClients()] *)
Definition initClients (e : env) (c : clients) : clients :=
  {| pineconeClient :=
       match to_create (pineconeClient c) (PINECONE_API_KEY e) with
       | Some k => Some k
       | None => pineconeClient c
       end;
     openaiClient :=
       match to_create (openaiClient c) (OPENAI_API_KEY e) with
       | Some k => Some k
       | None => openaiClient c
       end |}.

End KnowledgeSearch.

(* ================================================================== *)
(** ** The browser side of a retrieval: [searchKnowledge] *)
(* ================================================================== *)

Module Client.

(** What [fetch('/api/knowledge-search')] followed by [response.json()]
    gives: one of the two rejects (network failure, a body that is not
    JSON), or [data] arrives with its [success] and [context]. *)
Inductive fetched :=
| Rejected
| Data (success : bool) (context : jsstring).

(** The reply of the endpoint above, as the browser reads it. *)
Definition of_response (r : KnowledgeSearch.response) : fetched :=
  Data (KnowledgeSearch.success r) (KnowledgeSearch.context r).

(** [searchKnowledge(query)], given what the fetch came to.  The function
    is written twice, in [TextInput.tsx] and in the interactive-avatar
    component, with the same body up to logging; it never rejects. *)
Definition searchKnowledge (reply : fetched) : jsstring :=
  match reply with
  | Data success context =>
      if (success && truthy context)%bool then context else []
  | Rejected => []
  end.

(** The fetch of [searchKnowledge(query)] when the network holds: the
    endpoint receives the body [JSON.stringify({ query })] and its reply
    is read back. *)
Definition via_endpoint
    (embeddings_create : jsstring -> completion (list KnowledgeSearch.vector))
    (index_query : KnowledgeSearch.vector -> Z ->
                   completion (list KnowledgeSearch.scored_match))
    (e : KnowledgeSearch.env) (query : jsstring) : fetched :=
  of_response
    (fst (KnowledgeSearch.POST embeddings_create index_query e
            (KnowledgeSearch.Parsed (KnowledgeSearch.Str query)
               KnowledgeSearch.Undefined))).

End Client.

(* ================================================================== *)
(** ** Text mode: [handleSend] of [TextInput.tsx] *)
(* ================================================================== *)

Module TextInput.

Inductive TaskType := TALK | REPEAT.
Inductive TaskMode := SYNC | ASYNC.

(** The four senders of [useTextChat]. *)
Inductive sender :=
| sendMessage | sendMessageSync | repeatMessage | repeatMessageSync.

Inductive effect :=
| SetIsSearching (b : bool)
| Fetch (query : jsstring)
| Send (via : sender) (text : jsstring)
| SetMessage (text : jsstring).

(** ["\n\n以下の情報を参考にしてください:\n"] *)
Definition reference_label : jsstring :=
  [0x0A; 0x0A; 0x4EE5; 0x4E0B; 0x306E; 0x60C5; 0x5831; 0x3092; 0x53C2;
   0x8003; 0x306B; 0x3057; 0x3066; 0x304F; 0x3060; 0x3055; 0x3044; 0x3A;
   0x0A]%N.

(** The conditional expressions that pick the sender. *)
Definition pick (taskType : TaskType) (taskMode : TaskMode) : sender :=
  match taskType, taskMode with
  | TALK, SYNC => sendMessageSync
  | TALK, ASYNC => sendMessage
  | REPEAT, SYNC => repeatMessageSync
  | REPEAT, ASYNC => repeatMessage
  end.

Section HandleSend.

(** The component state the callback closes over. *)
Variable message : jsstring.
Variable taskType : TaskType.
Variable taskMode : TaskMode.

(** What the knowledge search comes to for a query, and whether a call
    of a sender throws ([None]: it returns). *)
Variable fetch : jsstring -> Client.fetched.
Variable send_throws : sender -> jsstring -> option thrown.

(** The message built inside the [try], and the fetch made for it. *)
Definition finalMessage : jsstring * list effect :=
  match taskType with
  | TALK =>
      let knowledgeContext := Client.searchKnowledge (fetch message) in
      (if truthy knowledgeContext
       then message ++ reference_label ++ knowledgeContext
       else message,
       [Fetch message])
  | REPEAT => (message, [])
  end.

(** [handleSend()]: how it ends and what it did, in order. *)
Definition handleSend : completion unit * list effect :=
  if str_eqb (trim message) [] then (Normal tt, [])
  else
    let (final, searched) := finalMessage in
    let via := pick taskType taskMode in
    let tried := [SetIsSearching true] ++ searched ++ [Send via final] in
    match send_throws via final with
    | None => (Normal tt, tried ++ [SetMessage []; SetIsSearching false])
    | Some _ =>
        (* the [catch]: the original message goes out instead *)
        match send_throws via message with
        | None =>
            (Normal tt,
             tried ++ [Send via message; SetMessage [];
                       SetIsSearching false])
        | Some e =>
            (Throw e, tried ++ [Send via message; SetIsSearching false])
        end
    end.

(** The texts handed to a sender, in order. *)
Fixpoint sent (effects : list effect) : list jsstring :=
  match effects with
  | [] => []
  | Send _ t :: r => t :: sent r
  | _ :: r => sent r
  end.

(** The queries handed to the knowledge search, in order. *)
Fixpoint searched_for (effects : list effect) : list jsstring :=
  match effects with
  | [] => []
  | Fetch q :: r => q :: searched_for r
  | _ :: r => searched_for r
  end.

End HandleSend.

(** A typed message and a retrieved context. *)
Definition ex_hello : jsstring := [104; 105]%N.            (* "hi" *)
Definition ex_context : jsstring := [88; 32; 105; 115]%N.  (* "X is" *)

End TextInput.

(* ================================================================== *)
(** ** Voice mode: the event handlers of [startSessionV2] *)
(* ================================================================== *)

Module InteractiveAvatar.

(** ["\n\n【参考情報】: "] *)
Definition speak_prefix : jsstring :=
  [0x0A; 0x0A; 0x3010; 0x53C2; 0x8003; 0x60C5; 0x5831; 0x3011; 0x3A;
   0x20]%N.

(** The keys of an event that the handlers probe.  An absent key and an
    empty string are both falsy under [||], so an absent key is the empty
    string here. *)
Record payload := {
  detail_message : jsstring;   (* event?.detail?.message *)
  detail_text : jsstring;      (* event?.detail?.text *)
  event_message : jsstring     (* event?.message *)
}.

Definition no_payload : payload :=
  {| detail_message := []; detail_text := []; event_message := [] |}.

(** The handler that started a retrieval and awaits its result. *)
Inductive origin := FromUserStop | FromUserEndMessage.

(** A [searchKnowledge] call that has not settled yet, with what its
    continuation closed over.  [r_turn] is bookkeeping of this model only
    (see [turnSeq] below). *)
Record retrieval := {
  r_origin : origin;
  r_query : jsstring;
  r_turn : nat
}.

(** What leaves the component: a call of the knowledge search and a call
    of [avatar.speak], each tagged with the turn it belongs to. *)
Inductive effect :=
| Search (turn : nat) (query : jsstring)
| Speak (turn : nat) (text : jsstring).

(** The session as the handlers see it: the [isVoice] argument of
    [startSessionV2], [lastUserMessageRef.current], the retrievals in
    flight and everything done so far (oldest first).  [turnSeq] counts
    the [USER_START] events; the program keeps no such number, it is
    carried along to name turns in the statements and nothing the
    handlers do depends on it. *)
Record session := {
  isVoice : bool;
  lastUserMessage : jsstring;
  inflight : list retrieval;
  done : list effect;
  turnSeq : nat
}.

Definition start (voice : bool) : session :=
  {| isVoice := voice; lastUserMessage := []; inflight := []; done := [];
     turnSeq := 0 |}.

(** What the event loop delivers: one of the four user events, or the
    settling of the [k]-th retrieval in flight with what its fetch came
    to. *)
Inductive input :=
| USER_START
| USER_TALKING_MESSAGE (event : payload)
| USER_STOP
| USER_END_MESSAGE (event : payload)
| Settled (k : nat) (reply : Client.fetched).

(** Calling [searchKnowledge(userMessage)] from a handler: the fetch goes
    out at once and the rest of the handler waits for it. *)
Definition invoke (s : session) (from : origin) (userMessage : jsstring)
  : session :=
  {| isVoice := isVoice s;
     lastUserMessage := lastUserMessage s;
     inflight := inflight s ++
       [{| r_origin := from; r_query := userMessage; r_turn := turnSeq s |}];
     done := done s ++ [Search (turnSeq s) userMessage];
     turnSeq := turnSeq s |}.

Definition set_lastUserMessage (s : session) (m : jsstring) : session :=
  {| isVoice := isVoice s; lastUserMessage := m; inflight := inflight s;
     done := done s; turnSeq := turnSeq s |}.

Definition on_USER_START (s : session) : session :=
  {| isVoice := isVoice s; lastUserMessage := []; inflight := inflight s;
     done := done s; turnSeq := S (turnSeq s) |}.

Definition on_USER_STOP (s : session) : session :=
  if (isVoice s && truthy (lastUserMessage s))%bool
  then invoke s FromUserStop (lastUserMessage s)
  else s.

Definition on_USER_TALKING_MESSAGE (s : session) (event : payload)
  : session :=
  let message := or_else (detail_message event)
                   (or_else (detail_text event) []) in
  if truthy message then set_lastUserMessage s message else s.

Definition on_USER_END_MESSAGE (s : session) (event : payload) : session :=
  let userMessage :=
    or_else (detail_message event)
      (or_else (detail_text event)
         (or_else (event_message event)
            (or_else (lastUserMessage s) []))) in
  if (truthy userMessage && isVoice s)%bool
  then invoke s FromUserEndMessage userMessage
  else s.

(** [l] without its [k]-th element. *)
Definition remove_nth {A} (k : nat) (l : list A) : list A :=
  firstn k l ++ skipn (S k) l.

(** The part of a handler after its [await searchKnowledge(..)]: the
    [USER_STOP] handler speaks a non-empty context, the
    [USER_END_MESSAGE] handler only logs. *)
Definition resume (s : session) (k : nat) (reply : Client.fetched)
  : session :=
  match nth_error (inflight s) k with
  | None => s
  | Some r =>
      let knowledgeContext := Client.searchKnowledge reply in
      let said :=
        match r_origin r with
        | FromUserStop =>
            if truthy knowledgeContext
            then [Speak (r_turn r) (speak_prefix ++ knowledgeContext)]
            else []
        | FromUserEndMessage => []
        end in
      {| isVoice := isVoice s;
         lastUserMessage := lastUserMessage s;
         inflight := remove_nth k (inflight s);
         done := done s ++ said;
         turnSeq := turnSeq s |}
  end.

Definition step (s : session) (i : input) : session :=
  match i with
  | USER_START => on_USER_START s
  | USER_TALKING_MESSAGE e => on_USER_TALKING_MESSAGE s e
  | USER_STOP => on_USER_STOP s
  | USER_END_MESSAGE e => on_USER_END_MESSAGE s e
  | Settled k reply => resume s k reply
  end.

Definition run (s : session) (inputs : list input) : session :=
  fold_left step inputs s.

(** How often the Retrieval Service was invoked. *)
Fixpoint searches (effects : list effect) : nat :=
  match effects with
  | [] => 0%nat
  | Search _ _ :: r => S (searches r)
  | Speak _ _ :: r => searches r
  end.

(** Has a turn later than [turn] started a retrieval in [effects]? *)
Definition superseded (turn : nat) (effects : list effect) : bool :=
  existsb (fun e => match e with
                    | Search t _ => Nat.ltb turn t
                    | Speak _ _ => false
                    end) effects.

(** Is some result applied after a later turn has committed and started
    its own retrieval?  [before] holds what precedes [effects]. *)
Fixpoint stale_apply (before effects : list effect) : bool :=
  match effects with
  | [] => false
  | Speak t x :: r =>
      (superseded t before || stale_apply (before ++ [Speak t x]) r)%bool
  | e :: r => stale_apply (before ++ [e]) r
  end.

(** Inputs that are no user event. *)
Definition is_settled (i : input) : bool :=
  match i with Settled _ _ => true | _ => false end.

(** An effect, a waiting retrieval and a session without their turn
    numbers. *)
Definition untagged (e : effect) : bool * jsstring :=
  match e with
  | Search _ q => (true, q)
  | Speak _ x => (false, x)
  end.

Definition waiting (r : retrieval) : origin * jsstring :=
  (r_origin r, r_query r).

Definition same_but_turns (a b : session) : Prop :=
  isVoice a = isVoice b /\
  lastUserMessage a = lastUserMessage b /\
  map waiting (inflight a) = map waiting (inflight b) /\
  map untagged (done a) = map untagged (done b).

(** The payload of an event that carries [m] as [detail.message]. *)
Definition said (m : jsstring) : payload :=
  {| detail_message := m; detail_text := []; event_message := [] |}.

Definition utterance_a : jsstring := [97]%N.    (* "a" *)
Definition utterance_b : jsstring := [98]%N.    (* "b" *)
Definition knowledge_a : jsstring := [65]%N.    (* "A" *)

(** One voice turn: the user speaks, stops, and the message is
    confirmed. *)
Definition one_turn : list input :=
  [USER_START; USER_TALKING_MESSAGE (said utterance_a); USER_STOP;
   USER_END_MESSAGE no_payload].

(** Two voice turns; the retrieval of the first settles only after the
    second has committed and started its own. *)
Definition overlapping_turns : list input :=
  [USER_START; USER_TALKING_MESSAGE (said utterance_a); USER_STOP;
   USER_START; USER_TALKING_MESSAGE (said utterance_b); USER_STOP;
   Settled 0 (Client.Data true knowledge_a)].

(** How often the avatar was asked to speak. *)
Fixpoint speaks (effects : list effect) : nat :=
  match effects with
  | [] => 0%nat
  | Speak _ _ :: r => S (speaks r)
  | Search _ _ :: r => speaks r
  end.

(** The text a [USER_TALKING_MESSAGE] event carries:
    [event?.detail?.message || event?.detail?.text || '']. *)
Definition transcript (event : payload) : jsstring :=
  or_else (detail_message event) (or_else (detail_text event) []).

End InteractiveAvatar.

(* ================================================================== *)
(** ** The ingestion scripts: calls to the outside and their order *)
(* ================================================================== *)

Module Script.

(** A record handed to [index.upsert]:
    [{ id, values, metadata: { source, text } }]. *)
Record record := {
  id : jsstring;
  values : KnowledgeSearch.vector;
  r_source : jsstring;
  r_text : jsstring
}.

(** What a script asks of the outside: the vector store, the embedding
    service, the file system, the clock and the process. *)
Inductive call :=
| ListIndexes
| CreateIndex (name : jsstring) (dimension : Z) (metric : jsstring)
| Wait (ms : Z)
| Embed (input : jsstring)
| Upsert (records : list record)
| DescribeIndexStats
| ReadDir (folder : jsstring)
| ReadPDF (path : jsstring)
| ReadWord (path : jsstring)
| ReadTXT (path : jsstring)
| Exit (code : Z).

Definition history := list call.

(** A step of a script: given the calls made before it, how it ends and
    the calls it makes.  The outside may answer the same call differently
    each time, so its answers depend on the history. *)
Definition M (A : Type) : Type := history -> completion A * list call.

Definition ret {A} (a : A) : M A := fun _ => (Normal a, []).
Definition raise {A} (e : thrown) : M A := fun _ => (Throw e, []).
Definition bind {A B} (m : M A) (k : A -> M B) : M B :=
  fun h =>
    match m h with
    | (Normal a, made) =>
        let (r, more) := k a (h ++ made) in (r, made ++ more)
    | (Throw e, made) => (Throw e, made)
    end.

(** [try { m } catch (e) { handler(e) }] *)
Definition catch {A} (m : M A) (handler : thrown -> M A) : M A :=
  fun h =>
    match m h with
    | (Throw e, made) =>
        let (r, more) := handler e (h ++ made) in (r, made ++ more)
    | done => done
    end.

(** One call, answered by the outside. *)
Definition ask {A} (c : call) (answer : history -> completion A) : M A :=
  fun h => (answer h, [c]).

Notation "x <- m ;; k" := (bind m (fun x => k))
  (at level 61, m at next level, right associativity).
Notation "m ;;; k" := (bind m (fun _ => k))
  (at level 61, right associativity).

(** [response.data[0].embedding] *)
Definition first_embedding (data : list KnowledgeSearch.vector)
  : M KnowledgeSearch.vector :=
  match data with
  | v :: _ => ret v
  | [] => raise (ErrorObject KnowledgeSearch.msg_undefined_property)
  end.

(** ['knowledge-base'] and ['cosine'] *)
Definition knowledge_base : jsstring :=
  [107; 110; 111; 119; 108; 101; 100; 103; 101; 45; 98; 97; 115; 101]%N.
Definition cosine : jsstring := [99; 111; 115; 105; 110; 101]%N.

(** [list.indexes?.find(i => i.name === name)] and
    [list.indexes?.some(i => i.name === name)], as a truth value: the
    listing may lack its [indexes]. *)
Definition listed (name : jsstring) (indexes : option (list jsstring)) : bool :=
  match indexes with
  | Some names => existsb (str_eqb name) names
  | None => false
  end.



Definition is_upsert (c : call) : bool :=
  match c with Upsert _ => true | _ => false end.

(** The calls a setup of the index makes. *)
Definition setup_call (c : call) : Prop :=
  match c with
  | ListIndexes | CreateIndex _ _ _ | Wait _ => True
  | _ => False
  end.

End Script.

(* ================================================================== *)
(** ** [setup-pinecone-data.ts]: the sample documents *)
(* ================================================================== *)

Module SetupSample.

Import Script.

Record Document := {
  doc_id : jsstring;
  doc_text : jsstring;
  doc_source : jsstring
}.

Definition doc_001 : Document :=
  {| doc_id :=
  [100; 111; 99; 95; 48; 48; 49]%N;
     doc_text :=
  [72; 101; 121; 71; 101; 110; 0x306F; 65; 73; 0x6280; 0x8853; 0x3092;
   0x6D3B; 0x7528; 0x3057; 0x305F; 0x30A2; 0x30D0; 0x30BF; 0x30FC; 0x52D5;
   0x753B; 0x751F; 0x6210; 0x30D7; 0x30E9; 0x30C3; 0x30C8; 0x30D5; 0x30A9;
   0x30FC; 0x30E0; 0x3067; 0x3059; 0x3002; 0x30EA; 0x30A2; 0x30EB; 0x306A;
   0x30A2; 0x30D0; 0x30BF; 0x30FC; 0x3068; 0x97F3; 0x58F0; 0x5408; 0x6210;
   0x306B; 0x3088; 0x308A; 0x3001; 0x7C21; 0x5358; 0x306B; 0x9AD8; 0x54C1;
   0x8CEA; 0x306A; 0x52D5; 0x753B; 0x30B3; 0x30F3; 0x30C6; 0x30F3; 0x30C4;
   0x3092; 0x4F5C; 0x6210; 0x3067; 0x304D; 0x307E; 0x3059; 0x3002]%N;
     doc_source :=
  [104; 101; 121; 103; 101; 110; 95; 105; 110; 102; 111]%N |}.

Definition doc_002 : Document :=
  {| doc_id :=
  [100; 111; 99; 95; 48; 48; 50]%N;
     doc_text :=
  [80; 105; 110; 101; 99; 111; 110; 101; 0x306F; 0x9AD8; 0x901F; 0x306A;
   0x30D9; 0x30AF; 0x30C8; 0x30EB; 0x691C; 0x7D22; 0x3092; 0x63D0; 0x4F9B;
   0x3059; 0x308B; 0x30DE; 0x30CD; 0x30FC; 0x30B8; 0x30C9; 0x30D9; 0x30AF;
   0x30C8; 0x30EB; 0x30C7; 0x30FC; 0x30BF; 0x30D9; 0x30FC; 0x30B9; 0x3067;
   0x3059; 0x3002; 0x6A5F; 0x68B0; 0x5B66; 0x7FD2; 0x30E2; 0x30C7; 0x30EB;
   0x306E; 0x57CB; 0x3081; 0x8FBC; 0x307F; 0x30D9; 0x30AF; 0x30C8; 0x30EB;
   0x3092; 0x52B9; 0x7387; 0x7684; 0x306B; 0x4FDD; 0x5B58; 0x30FB; 0x691C;
   0x7D22; 0x3067; 0x304D; 0x307E; 0x3059; 0x3002]%N;
     doc_source :=
  [112; 105; 110; 101; 99; 111; 110; 101; 95; 105; 110; 102; 111]%N |}.

Definition doc_003 : Document :=
  {| doc_id :=
  [100; 111; 99; 95; 48; 48; 51]%N;
     doc_text :=
  [82; 65; 71; 0xFF08; 82; 101; 116; 114; 105; 101; 118; 97; 108; 45; 65;
   117; 103; 109; 101; 110; 116; 101; 100; 32; 71; 101; 110; 101; 114; 97;
   116; 105; 111; 110; 0xFF09; 0x306F; 0x3001; 0x5916; 0x90E8; 0x30CA;
   0x30EC; 0x30C3; 0x30B8; 0x30D9; 0x30FC; 0x30B9; 0x304B; 0x3089; 0x95A2;
   0x9023; 0x60C5; 0x5831; 0x3092; 0x691C; 0x7D22; 0x3057; 0x3001; 0x305D;
   0x308C; 0x3092; 0x57FA; 0x306B; 76; 76; 77; 0x3067; 0x56DE; 0x7B54;
   0x3092; 0x751F; 0x6210; 0x3059; 0x308B; 0x624B; 0x6CD5; 0x3067; 0x3059;
   0x3002]%N;
     doc_source :=
  [114; 97; 103; 95; 105; 110; 102; 111]%N |}.

Definition doc_004 : Document :=
  {| doc_id :=
  [100; 111; 99; 95; 48; 48; 52]%N;
     doc_text :=
  [0x30D9; 0x30AF; 0x30C8; 0x30EB; 0x57CB; 0x3081; 0x8FBC; 0x307F; 0xFF08;
   69; 109; 98; 101; 100; 100; 105; 110; 103; 0xFF09; 0x306F; 0x3001;
   0x30C6; 0x30AD; 0x30B9; 0x30C8; 0x3084; 0x753B; 0x50CF; 0x306A; 0x3069;
   0x306E; 0x30C7; 0x30FC; 0x30BF; 0x3092; 0x6570; 0x5024; 0x30D9; 0x30AF;
   0x30C8; 0x30EB; 0x306B; 0x5909; 0x63DB; 0x3059; 0x308B; 0x6280; 0x8853;
   0x3067; 0x3059; 0x3002; 0x610F; 0x5473; 0x7684; 0x306B; 0x985E; 0x4F3C;
   0x3057; 0x305F; 0x30C7; 0x30FC; 0x30BF; 0x306F; 0x8FD1; 0x3044; 0x30D9;
   0x30AF; 0x30C8; 0x30EB; 0x306B; 0x306A; 0x308A; 0x307E; 0x3059; 0x3002]%N;
     doc_source :=
  [101; 109; 98; 101; 100; 100; 105; 110; 103; 95; 105; 110; 102; 111]%N |}.

Definition doc_005 : Document :=
  {| doc_id :=
  [100; 111; 99; 95; 48; 48; 53]%N;
     doc_text :=
  [79; 112; 101; 110; 65; 73; 0x306E; 116; 101; 120; 116; 45; 101; 109; 98;
   101; 100; 100; 105; 110; 103; 45; 51; 45; 115; 109; 97; 108; 108;
   0x30E2; 0x30C7; 0x30EB; 0x306F; 0x3001; 49; 53; 51; 54; 0x6B21; 0x5143;
   0x306E; 0x30D9; 0x30AF; 0x30C8; 0x30EB; 0x3092; 0x751F; 0x6210; 0x3057;
   0x3001; 0x30B3; 0x30B9; 0x30C8; 0x30D1; 0x30D5; 0x30A9; 0x30FC; 0x30DE;
   0x30F3; 0x30B9; 0x306B; 0x512A; 0x308C; 0x305F; 0x57CB; 0x3081; 0x8FBC;
   0x307F; 0x30E2; 0x30C7; 0x30EB; 0x3067; 0x3059; 0x3002]%N;
     doc_source :=
  [111; 112; 101; 110; 97; 105; 95; 105; 110; 102; 111]%N |}.

Definition SAMPLE_DOCUMENTS : list Document :=
  [doc_001; doc_002; doc_003; doc_004; doc_005].

(** The services the script talks to. *)
Record world := {
  listIndexes : history -> completion (option (list jsstring));
  createIndex : history -> completion unit;
  embeddings_create : history -> jsstring ->
                      completion (list KnowledgeSearch.vector);
  upsert : history -> list record -> completion unit;
  describeIndexStats : history -> completion unit
}.

Section Run.

Variable w : world.

(** [setupPineconeIndex()]; its [catch] logs and throws again. *)
Definition setupPineconeIndex : M unit :=
  catch
    (indexes <- ask ListIndexes (listIndexes w) ;;
     if negb (listed knowledge_base indexes) then
       ask (CreateIndex knowledge_base 1536 cosine) (createIndex w) ;;;
       ask (Wait 10000) (fun _ => Normal tt)
     else ret tt)
    (fun error => raise error).

(** [embedText(text)] *)
Definition embedText (text : jsstring) : M KnowledgeSearch.vector :=
  data <- ask (Embed text) (fun h => embeddings_create w h text) ;;
  first_embedding data.

(** The [for (const doc of SAMPLE_DOCUMENTS)] loop, [vectors] being the
    array it pushes to. *)
Fixpoint embed_documents (docs : list Document) (vectors : list record)
  : M (list record) :=
  match docs with
  | [] => ret vectors
  | doc :: rest =>
      vector <- embedText (doc_text doc) ;;
      embed_documents rest
        (vectors ++ [{| id := doc_id doc; values := vector;
                        r_source := doc_source doc;
                        r_text := doc_text doc |}])
  end.

(** [uploadDocuments(index)] over the documents [docs]; its [catch] logs
    and throws again. *)
Definition uploadDocuments_of (docs : list Document) : M unit :=
  catch
    (vectors <- embed_documents docs [] ;;
     ask (Upsert vectors) (fun h => upsert w h vectors))
    (fun error => raise error).

Definition uploadDocuments : M unit := uploadDocuments_of SAMPLE_DOCUMENTS.

(** [verifyData(index)] *)
Definition verifyData : M unit :=
  catch (ask DescribeIndexStats (describeIndexStats w))
        (fun error => raise error).

(** [main()]: any failure ends the process with code 1. *)
Definition main : M unit :=
  catch
    (setupPineconeIndex ;;; uploadDocuments ;;; verifyData)
    (fun _ => ask (Exit 1) (fun _ => Normal tt)).

End Run.

End SetupSample.

(* ================================================================== *)
(** ** [setup-pinecone-data copy.js]: documents from a folder *)
(* ================================================================== *)

Module Ingest.

Import Script.

Definition DOCUMENTS_FOLDER : jsstring :=      (* './documents' *)
  [46; 47; 100; 111; 99; 117; 109; 101; 110; 116; 115]%N.
Definition EMBEDDING_BATCH_DELAY : Z := 1000.
Definition ext_pdf : jsstring := [46; 112; 100; 102]%N.         (* '.pdf' *)
Definition ext_doc : jsstring := [46; 100; 111; 99]%N.          (* '.doc' *)
Definition ext_docx : jsstring := [46; 100; 111; 99; 120]%N.    (* '.docx' *)
Definition ext_txt : jsstring := [46; 116; 120; 116]%N.         (* '.txt' *)
Definition underscore : jsstring := [95]%N.                     (* '_' *)

(** The functions of Node's [path] module and of [String] that the script
    calls; they are kept abstract. *)
Record node := {
  extname : jsstring -> jsstring;          (* path.extname *)
  toLowerCase : jsstring -> jsstring;      (* String.prototype.toLowerCase *)
  join : jsstring -> jsstring -> jsstring; (* path.join *)
  parse_name : jsstring -> jsstring        (* path.parse(file).name *)
}.

(** The outside: the services, and what reading a directory or a file
    gives ([pdf-parse], [mammoth] and [fs] yield the text or throw). *)
Record world := {
  indexName : jsstring;
  listIndexes : history -> completion (option (list jsstring));
  createIndex : history -> completion unit;
  embeddings_create : history -> jsstring ->
                      completion (list KnowledgeSearch.vector);
  upsert : history -> list record -> completion unit;
  readdirSync : history -> completion (list jsstring);
  parsePDF : history -> jsstring -> completion jsstring;
  extractRawText : history -> jsstring -> completion jsstring;
  readFileSync : history -> jsstring -> completion jsstring
}.

(** [splitText(text, CHUNK_SIZE, CHUNK_OVERLAP)]: with a stride of 80 the
    loop has ended within [text.length + 1] tests. *)
Definition chunks_of (text : jsstring) : list jsstring :=
  match Chunker.splitText_main (S (length text)) text with
  | Some (Normal chunks) => chunks
  | _ => []
  end.

(** [`${path.parse(file).name}_${i + 1}`] *)
Definition record_id (stem : jsstring) (i : nat) : jsstring :=
  stem ++ underscore ++ of_nat (i + 1).

Section Run.

Variable n : node.
Variable w : world.

(** The three extractors: a failure is logged and gives [null]. *)
Definition extractTextFromPDF (filePath : jsstring) : M (option jsstring) :=
  catch (text <- ask (ReadPDF filePath) (fun h => parsePDF w h filePath) ;;
         ret (Some text))
        (fun _ => ret None).

Definition extractTextFromWord (filePath : jsstring) : M (option jsstring) :=
  catch (text <- ask (ReadWord filePath)
                   (fun h => extractRawText w h filePath) ;;
         ret (Some text))
        (fun _ => ret None).

Definition extractTextFromTXT (filePath : jsstring) : M (option jsstring) :=
  catch (text <- ask (ReadTXT filePath) (fun h => readFileSync w h filePath) ;;
         ret (Some text))
        (fun _ => ret None).

(** [extractTextFromFile(filePath)] *)
Definition extractTextFromFile (filePath : jsstring) : M (option jsstring) :=
  let ext := toLowerCase n (extname n filePath) in
  if str_eqb ext ext_pdf then extractTextFromPDF filePath
  else if (str_eqb ext ext_doc || str_eqb ext ext_docx)%bool
       then extractTextFromWord filePath
  else if str_eqb ext ext_txt then extractTextFromTXT filePath
  else ret None.

(** [embed(text)] *)
Definition embed (text : jsstring) : M KnowledgeSearch.vector :=
  data <- ask (Embed text) (fun h => embeddings_create w h text) ;;
  first_embedding data.

(** [setupIndex()] *)
Definition setupIndex : M unit :=
  list <- ask ListIndexes (listIndexes w) ;;
  if negb (listed (indexName w) list) then
    ask (CreateIndex (indexName w) 1536 cosine) (createIndex w) ;;;
    ask (Wait EMBEDDING_BATCH_DELAY) (fun _ => Normal tt)
  else ret tt.

(** The filter of [main]:
    [['.pdf', '.doc', '.docx', '.txt'].includes(path.extname(f).toLowerCase())]. *)
Definition supported (f : jsstring) : bool :=
  existsb (str_eqb (toLowerCase n (extname n f)))
          [ext_pdf; ext_doc; ext_docx; ext_txt].

(** The loop [for (let i = 0; i < chunks.length; i++)] from index [i] on,
    [chunks] being the chunks not yet embedded. *)
Fixpoint embed_chunks (file : jsstring) (chunks : list jsstring) (i : nat)
    (vectors : list record) : M (list record) :=
  match chunks with
  | [] => ret vectors
  | chunk :: rest =>
      embedding <- embed chunk ;;
      embed_chunks file rest (S i)
        (vectors ++ [{| id := record_id (parse_name n file) i;
                        values := embedding;
                        r_source := file;
                        r_text := chunk |}])
  end.

(** The loop [for (const file of files)]; a file without text is passed
    over. *)
Fixpoint embed_files (files : list jsstring) (vectors : list record)
  : M (list record) :=
  match files with
  | [] => ret vectors
  | file :: rest =>
      text <- extractTextFromFile (join n DOCUMENTS_FOLDER file) ;;
      match text with
      | Some (c :: t) =>
          vectors' <- embed_chunks file (chunks_of (c :: t)) 0 vectors ;;
          embed_files rest vectors'
      | _ => embed_files rest vectors
      end
  end.

(** The loop [for (let i = 0; i < vectors.length; i += 100)], run for at
    most [fuel] batches; [vectors.length] batches are never used up. *)
Fixpoint upsert_from (fuel : nat) (vectors : list record) (i : nat) : M unit :=
  match fuel with
  | O => ret tt
  | S fuel' =>
      if Nat.ltb i (length vectors) then
        let batch := firstn 100 (skipn i vectors) in
        ask (Upsert batch) (fun h => upsert w h batch) ;;;
        upsert_from fuel' vectors (i + 100)
      else ret tt
  end.

(** [main()] *)
Definition main : M unit :=
  setupIndex ;;;
  names <- ask (ReadDir DOCUMENTS_FOLDER) (readdirSync w) ;;
  let files := filter supported names in
  vectors <- embed_files files [] ;;
  upsert_from (length vectors) vectors 0.

(** [main().catch(e => { ...; process.exit(1) })] *)
Definition script : M unit :=
  catch main (fun _ => ask (Exit 1) (fun _ => Normal tt)).

End Run.

(** What a call of the folder script meets when the outside answers it
    after the calls [h]: [Some e] when the script then throws [e].  A
    service or [readdirSync] that throws makes its caller throw; so does
    an embedding reply without data, at [res.data[0].embedding].  The
    three readers are called inside a [try], so what they throw is caught
    on the spot; [setTimeout] and [process.exit] do not throw. *)
Definition failure (w : world) (h : history) (c : call) : option thrown :=
  match c with
  | ListIndexes =>
      match listIndexes w h with Throw e => Some e | Normal _ => None end
  | CreateIndex _ _ _ =>
      match createIndex w h with Throw e => Some e | Normal _ => None end
  | Embed text =>
      match embeddings_create w h text with
      | Throw e => Some e
      | Normal [] => Some (ErrorObject KnowledgeSearch.msg_undefined_property)
      | Normal (_ :: _) => None
      end
  | Upsert batch =>
      match upsert w h batch with Throw e => Some e | Normal _ => None end
  | ReadDir _ =>
      match readdirSync w h with Throw e => Some e | Normal _ => None end
  | ReadPDF _ | ReadWord _ | ReadTXT _ | Wait _ | Exit _
  | DescribeIndexStats => None
  end.

(** None of [calls], made one after the other from [h] on, meets a
    failure. *)
Fixpoint clean (w : world) (h : history) (calls : list call) : bool :=
  match calls with
  | [] => true
  | c :: rest =>
      match failure w h c with
      | None => clean w (h ++ [c]) rest
      | Some _ => false
      end
  end.

(** The calls of [m] account for the way it ends: when it returns none of
    its calls has met a failure, and when it throws, it throws what its
    last call has met, the calls before that one having met none. *)
Definition accounted {A} (w : world) (m : M A) : Prop :=
  forall h r made,
    m h = (r, made) ->
    match r with
    | Normal _ => clean w h made = true
    | Throw e =>
        exists pre c,
          made = pre ++ [c] /\ clean w h pre = true /\
          failure w (h ++ pre) c = Some e
    end.

(** The batches of 100 that a list of records falls into. *)
Fixpoint batches (fuel : nat) (vectors : list record) : list (list record) :=
  match fuel, vectors with
  | S fuel', _ :: _ => firstn 100 vectors :: batches fuel' (skipn 100 vectors)
  | _, _ => []
  end.

(** A small folder to run the script on: one text file, an index that
    exists, services that answer.  The stand-ins for Node's functions cut
    a name four code units before its end. *)
Definition ex_node : node :=
  {| extname := fun f => skipn (length f - 4) f;
     toLowerCase := fun s => s;
     join := fun a b => a ++ [47]%N ++ b;
     parse_name := fun f => firstn (length f - 4) f |}.

Definition ex_file : jsstring := [97; 46; 116; 120; 116]%N.     (* "a.txt" *)
Definition ex_text : jsstring := [104; 105]%N.                  (* "hi" *)
Definition ex_chunks : list jsstring := [[104; 105]%N; [121; 111]%N].

Definition ex_world : world :=
  {| indexName := knowledge_base;
     listIndexes := fun _ => Normal (Some [knowledge_base]);
     createIndex := fun _ => Normal tt;
     embeddings_create := fun _ _ => Normal [[1 # 2]%Q];
     upsert := fun _ _ => Normal tt;
     readdirSync := fun _ => Normal [ex_file];
     parsePDF := fun _ _ => Throw NotAnError;
     extractRawText := fun _ _ => Throw NotAnError;
     readFileSync := fun _ _ => Normal ex_text |}.

(** The same folder when the vector store refuses every upsert. *)
Definition ex_world_full : world :=
  {| indexName := knowledge_base;
     listIndexes := fun _ => Normal (Some [knowledge_base]);
     createIndex := fun _ => Normal tt;
     embeddings_create := fun _ _ => Normal [[1 # 2]%Q];
     upsert := fun _ _ => Throw NotAnError;
     readdirSync := fun _ => Normal [ex_file];
     parsePDF := fun _ _ => Throw NotAnError;
     extractRawText := fun _ _ => Throw NotAnError;
     readFileSync := fun _ _ => Normal ex_text |}.

End Ingest.

(* ================================================================== *)
(** * Properties *)
(* ================================================================== *)

(** ** Strings *)

Section StringFacts.

Lemma trimStart_blank (s : jsstring) : blank s = true -> trimStart s = [].
Proof.
  induction s as [|c r IH]; simpl; [reflexivity|].
  intros H. apply andb_true_iff in H as [Hc Hr].
  rewrite Hc. now apply IH.
Qed.

Lemma trimStart_nil_blank (s : jsstring) : trimStart s = [] -> blank s = true.
Proof.
  induction s as [|c r IH]; simpl; [reflexivity|].
  destruct (is_space c); [exact IH | discriminate].
Qed.

Lemma trimStart_head (s : jsstring) (c : N) (r : jsstring) :
  trimStart s = c :: r -> is_space c = false.
Proof.
  induction s as [|d t IH]; simpl; [discriminate|].
  destruct (is_space d) eqn:E; [exact IH|].
  intros H. injection H as -> _. exact E.
Qed.

Lemma blank_rev (s : jsstring) : blank (rev s) = blank s.
Proof.
  unfold blank. induction s as [|c r IH]; simpl; [reflexivity|].
  rewrite forallb_app, IH. simpl. rewrite andb_true_r. apply andb_comm.
Qed.

Lemma trim_blank (s : jsstring) : blank s = true -> trim s = [].
Proof.
  intros H. unfold trim, trimEnd. now rewrite (trimStart_blank s H).
Qed.

Lemma trim_nil_blank (s : jsstring) : trim s = [] -> blank s = true.
Proof.
  unfold trim, trimEnd. intros H.
  apply (f_equal (@rev N)) in H. rewrite rev_involutive in H. simpl in H.
  apply trimStart_nil_blank in H. rewrite blank_rev in H.
  destruct (trimStart s) as [|c r] eqn:E.
  - now apply trimStart_nil_blank.
  - apply trimStart_head in E. simpl in H. now rewrite E in H.
Qed.

(** [blank] is the test [!s.trim()] of the endpoint and the test
    [s.trim() === ""] of the text input. *)
Lemma blank_iff_trim_empty (s : jsstring) : blank s = true <-> trim s = [].
Proof. split; [apply trim_blank | apply trim_nil_blank]. Qed.

Lemma truthy_false (s : jsstring) : truthy s = false <-> s = [].
Proof. destruct s; simpl; split; congruence. Qed.

Lemma truthy_true (s : jsstring) : truthy s = true <-> s <> [].
Proof. destruct s; simpl; split; congruence. Qed.

Lemma slice_prefix_whole (s : jsstring) (n : Z) :
  len s <= n -> slice s 0 n = s.
Proof.
  intros H. unfold slice, len in *.
  replace (0 <? 0) with false by reflexivity.
  destruct (Z.ltb_spec n 0) as [Hn|Hn]; [lia|].
  rewrite (Z.min_l 0), (Z.min_r n) by lia.
  rewrite Z.sub_0_r, Nat2Z.id. simpl. apply firstn_all.
Qed.

Lemma slice_prefix_length (s : jsstring) (n : Z) :
  0 <= n -> len (slice s 0 n) <= n.
Proof.
  intros H. unfold slice, len.
  replace (0 <? 0) with false by reflexivity.
  destruct (Z.ltb_spec n 0) as [Hn|Hn]; [lia|].
  rewrite length_firstn. lia.
Qed.

End StringFacts.

(** ** The chunker *)

Section ChunkerFacts.

Import Chunker.

(** The loop only ever appends to [chunks]. *)
Lemma splitText_loop_extends (fuel : nat) (text : jsstring) (size overlap : Z) :
  forall i chunks out,
    splitText_loop fuel text size overlap i chunks = Some (Normal out) ->
    exists more, out = chunks ++ more.
Proof.
  induction fuel as [|fuel IH]; simpl; intros i chunks out H; [discriminate|].
  destruct (i <? len text).
  - apply IH in H as [more ->].
    destruct (truthy _).
    + exists ([trim (slice text i (i + size))] ++ more).
      now rewrite app_assoc.
    + now exists more.
  - injection H as <-. exists []. now rewrite app_nil_r.
Qed.

(** With a positive stride, [len text - i] tests more than cover the rest
    of the loop, and more fuel does not change the result. *)
Lemma splitText_loop_terminates (text : jsstring) (size overlap : Z) :
  0 < size - overlap ->
  forall n i chunks,
    (Z.to_nat (len text - i) <= n)%nat ->
    exists out, forall fuel, (n < fuel)%nat ->
      splitText_loop fuel text size overlap i chunks = Some (Normal out).
Proof.
  intros Hstride. induction n as [|n IH]; intros i chunks Hn.
  - exists chunks. intros [|fuel] Hf; [lia|]. simpl.
    destruct (Z.ltb_spec i (len text)); [lia | reflexivity].
  - destruct (Z.ltb_spec i (len text)) as [Hlt|Hge].
    + set (chunk := trim (slice text i (i + size))).
      destruct (IH (i + (size - overlap))
                  (if truthy chunk then chunks ++ [chunk] else chunks))
        as [out Hout]; [lia|].
      exists out. intros [|fuel] Hf; [lia|]. simpl.
      destruct (Z.ltb_spec i (len text)); [|lia].
      apply Hout. lia.
    + exists chunks. intros [|fuel] Hf; [lia|]. simpl.
      destruct (Z.ltb_spec i (len text)); [lia | reflexivity].
Qed.

(** With a stride that is not positive, [i] never grows, so a loop that
    is entered is never left. *)
Lemma splitText_loop_stuck (text : jsstring) (size overlap : Z) :
  size - overlap <= 0 ->
  forall fuel i chunks,
    i < len text ->
    splitText_loop fuel text size overlap i chunks = None.
Proof.
  intros Hstride. induction fuel as [|fuel IH]; intros i chunks Hi;
    [reflexivity|].
  simpl. destruct (Z.ltb_spec i (len text)); [|lia].
  apply IH. lia.
Qed.

Lemma len_pos (s : jsstring) : s <> [] -> 0 < len s.
Proof. destruct s; [congruence|]. intros _. unfold len. simpl. lia. Qed.

(** C7 (as the code has it): [splitText] validates nothing and never
    throws.  With a positive stride [size - overlap] it terminates, after
    at most [text.length] iterations; with a stride that is not positive
    it returns the empty array for the empty text and never leaves its
    loop for any other text. *)
Theorem splitText_terminates_iff_progress (text : jsstring) (size overlap : Z) :
  (0 < size - overlap ->
     exists chunks, forall fuel, (length text < fuel)%nat ->
       splitText fuel text size overlap = Some (Normal chunks)) /\
  (size - overlap <= 0 ->
     (text = [] -> forall fuel,
        splitText (S fuel) text size overlap = Some (Normal [])) /\
     (text <> [] -> forall fuel,
        splitText fuel text size overlap = None)) /\
  (forall fuel e, splitText fuel text size overlap <> Some (Throw e)).
Proof.
  split; [|split].
  - intros Hstride.
    apply (splitText_loop_terminates text size overlap Hstride
             (length text) 0 []).
    unfold len. lia.
  - intros Hstride. split.
    + intros -> fuel. reflexivity.
    + intros Hne fuel. apply splitText_loop_stuck; [exact Hstride|].
      now apply len_pos.
  - intros fuel e. unfold splitText. generalize 0 at 1, (@nil jsstring).
    induction fuel as [|fuel IH]; simpl; intros i chunks; [discriminate|].
    destruct (i <? len text); [apply IH | discriminate].
Qed.

(** The ingestion script calls the chunker with a chunk size of 100 and
    an overlap of 20 only, so every call it makes returns. *)
Corollary splitText_main_terminates (text : jsstring) :
  exists chunks, forall fuel, (length text < fuel)%nat ->
    splitText_main fuel text = Some (Normal chunks).
Proof.
  apply (splitText_loop_terminates text CHUNK_SIZE CHUNK_OVERLAP);
    unfold CHUNK_SIZE, CHUNK_OVERLAP, len; lia.
Qed.

Lemma splitText_terminates_iff_progress_witness :
  (exists chunks, forall fuel, (length text_ab < fuel)%nat ->
     splitText fuel text_ab 3 2 = Some (Normal chunks)) /\
  (forall fuel, splitText fuel text_a 1 1 = None).
Proof.
  split.
  - apply (splitText_terminates_iff_progress text_ab 3 2). lia.
  - apply (splitText_terminates_iff_progress text_a 1 1);
      [lia | discriminate].
Defined.

(** C7 fails as stated: [splitText("a", 1, 1)] has stride 0, and no
    number of iterations makes it throw or return. *)
Lemma splitText_zero_stride_no_error :
  ~ (exists fuel e, splitText fuel text_a 1 1 = Some (Throw e)) /\
  ~ (exists fuel out, splitText fuel text_a 1 1 = Some out).
Proof.
  assert (H : forall fuel, splitText fuel text_a 1 1 = None).
  { intros fuel. apply splitText_loop_stuck; [lia | reflexivity]. }
  split; intros (fuel & x & Hx); rewrite H in Hx; discriminate.
Qed.

Lemma blank_firstn (n : nat) (s : jsstring) :
  blank s = true -> blank (firstn n s) = true.
Proof.
  unfold blank. revert n. induction s as [|c r IH]; intros [|n] H;
    try reflexivity.
  simpl in *. apply andb_true_iff in H as [Hc Hr].
  rewrite Hc. now apply IH.
Qed.

Lemma blank_skipn (n : nat) (s : jsstring) :
  blank s = true -> blank (skipn n s) = true.
Proof.
  unfold blank. revert n. induction s as [|c r IH]; intros [|n] H;
    try reflexivity; [exact H|].
  simpl in *. apply andb_true_iff in H as [_ Hr]. now apply IH.
Qed.

(** Every window of a blank text is blank. *)
Lemma blank_slice (s : jsstring) (start stop : Z) :
  blank s = true -> blank (slice s start stop) = true.
Proof.
  intros H. unfold slice. cbv zeta. now apply blank_firstn, blank_skipn.
Qed.

(** On a blank text the test [if (chunk)] fails in every iteration, so
    the loop leaves [chunks] as it found it. *)
Lemma splitText_loop_blank (text : jsstring) (size overlap : Z) :
  blank text = true ->
  forall fuel i chunks r,
    splitText_loop fuel text size overlap i chunks = Some r ->
    r = Normal chunks.
Proof.
  intros Hb. induction fuel as [|fuel IH]; simpl; intros i chunks r H;
    [discriminate|].
  destruct (i <? len text).
  - rewrite (trim_blank _ (blank_slice text i (i + size) Hb)) in H.
    simpl in H. now apply IH in H.
  - now injection H as <-.
Qed.

(** C8 (as the code has it): a text that is not blank and no longer than
    the stride [size - overlap] gives exactly one chunk, the trimmed
    text; a text that is not blank and no longer than [size] gives the
    trimmed text as its first chunk, and the later windows may add
    more; a blank text gives no chunk at all. *)
Theorem splitText_short_text (text : jsstring) (size overlap : Z) :
  0 <= overlap -> overlap < size ->
  (trim text <> [] -> len text <= size - overlap ->
     forall fuel, (2 <= fuel)%nat ->
       splitText fuel text size overlap = Some (Normal [trim text])) /\
  (trim text <> [] -> len text <= size ->
     exists more, forall fuel, (length text < fuel)%nat ->
       splitText fuel text size overlap = Some (Normal (trim text :: more))) /\
  (blank text = true ->
     forall fuel, (length text < fuel)%nat ->
       splitText fuel text size overlap = Some (Normal [])).
Proof.
  intros Hov Hsz.
  assert (Hpos : trim text <> [] -> 0 < len text).
  { intros Hne. apply len_pos. intros ->. now apply Hne. }
  split; [|split].
  - intros Hne Hlen [|[|fuel]] Hf; try lia.
    specialize (Hpos Hne).
    unfold splitText. simpl.
    destruct (Z.ltb_spec 0 (len text)); [|lia].
    rewrite slice_prefix_whole by lia.
    apply truthy_true in Hne. rewrite Hne.
    destruct (Z.ltb_spec (size - overlap) (len text)); [lia|].
    reflexivity.
  - intros Hne Hlen. specialize (Hpos Hne).
    destruct (splitText_loop_terminates text size overlap ltac:(lia)
                (length text) 0 []) as [out Hout]; [unfold len; lia|].
    assert (Hrun := Hout (S (length text)) ltac:(lia)).
    simpl in Hrun.
    destruct (Z.ltb_spec 0 (len text)); [|lia].
    rewrite slice_prefix_whole in Hrun by lia.
    apply truthy_true in Hne. rewrite Hne in Hrun.
    apply splitText_loop_extends in Hrun as [more ->].
    exists more. exact Hout.
  - intros Hb fuel Hf.
    destruct (splitText_loop_terminates text size overlap ltac:(lia)
                (length text) 0 []) as [out Hout]; [unfold len; lia|].
    unfold splitText. rewrite (Hout fuel Hf). f_equal.
    exact (splitText_loop_blank text size overlap Hb fuel 0 [] _
             (Hout fuel Hf)).
Qed.

Lemma splitText_short_text_witness :
  splitText 2 text_ab 3 1 = Some (Normal [trim text_ab]) /\
  (exists more, forall fuel, (length text_ab < fuel)%nat ->
     splitText fuel text_ab 3 2 = Some (Normal (trim text_ab :: more))) /\
  splitText 3 text_spaces 3 2 = Some (Normal []).
Proof.
  split; [|split].
  - apply (splitText_short_text text_ab 3 1);
      [lia | lia | discriminate | unfold len; simpl; lia | lia].
  - apply (splitText_short_text text_ab 3 2);
      [lia | lia | discriminate | unfold len; simpl; lia].
  - apply (splitText_short_text text_spaces 3 2);
      [lia | lia | reflexivity | simpl; lia].
Defined.

(** C8 fails as stated: ["ab"] is shorter than the chunk size 3 (overlap
    2), yet it gives the two chunks ["ab"] and ["b"]; and a text of two
    spaces gives none. *)
Lemma splitText_short_text_two_chunks :
  len text_ab < 3 /\
  splitText 3 text_ab 3 2 = Some (Normal [text_ab; text_b]) /\
  splitText 3 text_ab 3 2 <> Some (Normal [trim text_ab]) /\
  splitText 3 [32; 32]%N 3 2 = Some (Normal []).
Proof.
  split; [reflexivity|].
  split; [reflexivity|].
  split; [discriminate | reflexivity].
Qed.

End ChunkerFacts.

(** ** The retrieval endpoint *)

Section EndpointFacts.

Import KnowledgeSearch.

Variable embeddings_create : jsstring -> completion (list vector).
Variable index_query : vector -> Z -> completion (list scored_match).

Local Abbreviation POST := (POST embeddings_create index_query).

Lemma bind_ret {A B} (a : A) (k : A -> M B) : bind (ret a) k = k a.
Proof. unfold bind, ret. now destruct (k a). Qed.

Lemma bind_raise {A B} (t : thrown) (k : A -> M B) :
  bind (raise t) k = raise t.
Proof. reflexivity. Qed.

(** Every run of the handler is one of two kinds: an empty reply, or the
    reply built from the matches after exactly one embedding call and one
    vector-store call. *)
Lemma POST_cases (e : env) (body : request_body) r calls :
  POST e body = (r, calls) ->
  (exists err, r = respond_empty err) \/
  (exists q v rest matches,
      configured e /\
      read_query body = ret (Str q) /\
      truthy (trim q) = true /\
      embeddings_create q = Normal (v :: rest) /\
      index_query v TOP_K = Normal matches /\
      r = found matches /\
      calls = [EmbeddingsCreate q; IndexQuery v TOP_K]).
Proof.
  unfold KnowledgeSearch.POST, try_block, configured.
  destruct (missing (PINECONE_API_KEY e)); simpl orb; cbv iota;
    [intros [= <- <-]; left; eauto|].
  destruct (missing (OPENAI_API_KEY e)); simpl orb; cbv iota;
    [intros [= <- <-]; left; eauto|].
  destruct body as [| |q0 qn]; simpl read_query;
    rewrite ?bind_ret, ?bind_raise;
    try (intros [= <- <-]; left; eauto; fail).
  destruct (field_or (field_or q0 qn) (Str [])) as [|s|t] eqn:F;
    simpl as_string; rewrite ?bind_ret, ?bind_raise;
    try (intros [= <- <-]; left; eauto; fail).
  destruct (truthy (trim s)) eqn:T; simpl negb; cbv iota;
    [|intros [= <- <-]; left; eauto].
  unfold call_embeddings, call_query, bind at 1.
  destruct (embeddings_create s) as [[|v rest]|t] eqn:E;
    [intros [= <- <-]; left; eauto | | intros [= <- <-]; left; eauto].
  simpl first_embedding. rewrite bind_ret. unfold bind at 1.
  destruct (index_query v TOP_K) as [matches|t] eqn:Qy;
    [|intros [= <- <-]; left; eauto].
  intros [= <- <-].
  right. exists s, v, rest, matches.
  split; [split; reflexivity|].
  split; [reflexivity|].
  repeat (split; [assumption|]). split; reflexivity.
Qed.

Lemma try_block_query (e : env) (body : request_body) (q : jsstring) :
  configured e -> read_query body = ret (Str q) ->
  try_block embeddings_create index_query e body =
  if negb (truthy (trim q)) then ret (respond_empty None)
  else
    data <- call_embeddings embeddings_create q ;;
    queryVector <- first_embedding data ;;
    matches <- call_query index_query queryVector TOP_K ;;
    ret (found matches).
Proof.
  intros [K1 K2] Hq. unfold try_block. rewrite K1, K2, Hq. simpl orb.
  cbv iota. rewrite bind_ret. simpl as_string. now rewrite bind_ret.
Qed.

(** C3: an empty or white-space-only query is answered with
    [{success: false, context: ''}] and status 200, and neither the
    embedding service nor the vector store is called; with both keys set
    the reply carries no [error] either. *)
Theorem blank_query_short_circuits (e : env) (body : request_body)
    (q : jsstring) :
  read_query body = ret (Str q) -> blank q = true ->
  let (r, calls) := POST e body in
  status r = 200 /\ success r = false /\ context r = [] /\
  sources r = None /\ calls = [] /\
  (configured e -> error r = None).
Proof.
  intros Hq Hb. unfold KnowledgeSearch.POST.
  destruct (missing (PINECONE_API_KEY e)) eqn:K1;
    [| destruct (missing (OPENAI_API_KEY e)) eqn:K2].
  - unfold try_block. rewrite K1. simpl.
    repeat split. intros [K _]. congruence.
  - unfold try_block. rewrite K1, K2. simpl.
    repeat split. intros [_ K]. congruence.
  - rewrite (try_block_query e body q (conj K1 K2) Hq).
    rewrite (trim_blank q Hb). simpl. repeat split.
Qed.

(** C4: when the embedding call throws, returns no embedding, or the
    vector-store query throws, the handler still answers, with status
    200, [success: false] and an empty context. *)
Theorem internal_failure_is_soft (e : env) (body : request_body)
    (q : jsstring) (t : thrown) :
  configured e -> read_query body = ret (Str q) ->
  truthy (trim q) = true ->
  embeddings_create q = Throw t \/
  (embeddings_create q = Normal [] /\
   t = ErrorObject msg_undefined_property) \/
  (exists v rest, embeddings_create q = Normal (v :: rest) /\
                  index_query v TOP_K = Throw t) ->
  let r := fst (POST e body) in
  status r = 200 /\ success r = false /\ context r = [] /\
  error r = Some (error_message t) /\ sources r = None.
Proof.
  intros K Hq T Hfail. unfold KnowledgeSearch.POST.
  rewrite (try_block_query e body q K Hq), T. simpl negb. cbv iota.
  unfold call_embeddings, call_query.
  destruct Hfail as [E | [[E ->] | (v & rest & E & Qy)]]; rewrite E.
  - simpl. repeat split.
  - unfold bind, first_embedding, raise. simpl. repeat split.
  - unfold bind, first_embedding, ret. simpl. rewrite Qy. simpl.
    repeat split.
Qed.

(** C5: whatever the request and whatever the services answer, the
    context of the reply has at most 500 code units. *)
Theorem context_at_most_500 (e : env) (body : request_body) :
  len (context (fst (POST e body))) <= 500.
Proof.
  destruct (POST e body) as [r calls] eqn:H.
  apply POST_cases in H as [[err ->] | (q & v & rest & ms & H)].
  - simpl. unfold len. simpl. lia.
  - destruct H as (_ & _ & _ & _ & _ & -> & _). simpl.
    apply slice_prefix_length. unfold MAX_CONTEXT. lia.
Qed.

(** What the browser's [searchKnowledge] makes of any reply of the endpoint
    is as short. *)
Corollary retrieved_context_at_most_500 (e : env) (body : request_body) :
  len (Client.searchKnowledge (Client.of_response (fst (POST e body)))) <= 500.
Proof.
  destruct (POST e body) as [r calls] eqn:H.
  apply POST_cases in H as [[err ->] | (q & v & rest & ms & H)].
  - unfold len. simpl. lia.
  - destruct H as (_ & _ & _ & _ & _ & -> & _).
    unfold Client.of_response, Client.searchKnowledge.
    destruct (success _ && truthy _)%bool; [|unfold len; simpl; lia].
    apply slice_prefix_length. unfold MAX_CONTEXT. lia.
Qed.

Lemma passes_spec (it : knowledge_item) :
  passes it = true <-> (RELEVANCE_THRESHOLD < score it)%Q.
Proof.
  unfold passes, Qgtb. rewrite negb_true_iff.
  split; intros H.
  - apply Qnot_le_lt. intros Hle. apply Qle_bool_iff in Hle. congruence.
  - destruct (Qle_bool (score it) RELEVANCE_THRESHOLD) eqn:E; [|reflexivity].
    apply Qle_bool_iff in E. exfalso. exact (Qlt_not_le _ _ H E).
Qed.





(** C10: in a successful reply [sources] lists every match the vector
    store returned for the [topK: 3] query, in order, whatever its score:
    a match at or below the threshold is listed although the context
    leaves it out.  A missing score reads 0, a missing or empty text the
    empty string, a missing or empty source ['unknown']. *)
Theorem sources_list_every_match (e : env) (body : request_body) :
  let (r, calls) := POST e body in
  success r = true ->
  exists q v rest matches items,
    embeddings_create q = Normal (v :: rest) /\
    index_query v 3 = Normal matches /\
    calls = [EmbeddingsCreate q; IndexQuery v 3] /\
    sources r = Some items /\
    length items = length matches /\
    (forall i m, nth_error matches i = Some m ->
       exists it, nth_error items i = Some it /\
         score it = match m_score m with Some x => x | None => 0%Q end /\
         text it = match m_metadata m with
                   | Some {| md_text := Some t |} => t
                   | _ => []
                   end /\
         source it = match m_metadata m with
                     | Some {| md_source := Some (c :: s) |} => c :: s
                     | _ => str_unknown
                     end /\
         ((score it <= RELEVANCE_THRESHOLD)%Q ->
            In it items /\ ~ In it (filter passes items))).
Proof.
  destruct (POST e body) as [r calls] eqn:H.
  apply POST_cases in H as [[err ->] | (q & v & rest & ms & H)];
    [discriminate|].
  destruct H as (_ & _ & _ & E & Qy & -> & ->). intros _.
  exists q, v, rest, ms, (map to_item ms).
  split; [exact E|]. split; [exact Qy|].
  split; [reflexivity|]. split; [reflexivity|].
  split; [apply length_map|].
  intros i m Hm. exists (to_item m).
  assert (Hi : nth_error (map to_item ms) i = Some (to_item m)).
  { rewrite nth_error_map, Hm. reflexivity. }
  split; [exact Hi|]. split; [reflexivity|]. split; [|split].
  - unfold to_item, text_or_empty. simpl.
    destruct (m_metadata m) as [[[t|] src]|]; try reflexivity.
    now destruct t.
  - unfold to_item, source_or_unknown. simpl.
    destruct (m_metadata m) as [[t [src|]]|]; try reflexivity.
    now destruct src.
  - intros Hlow. split; [eapply nth_error_In; exact Hi|].
    intros Hk. apply filter_In in Hk as [_ Hk].
    apply passes_spec in Hk. exact (Qlt_not_le _ _ Hk Hlow).
Qed.

End EndpointFacts.

(** *** The endpoint on concrete requests *)

Section EndpointExamples.

Import KnowledgeSearch.

(** The end-to-end scenario of the specification. *)
Example POST_scenario :
  POST ex_embed ex_store ex_env (Parsed (Str ex_question) Undefined) =
  ({| status := 200; success := true;
      context := marker_open ++ [49]%N ++ marker_close ++ ex_answer;
      error := None;
      sources := Some (map to_item ex_matches) |},
   [EmbeddingsCreate ex_question; IndexQuery [1 # 2; 1 # 3]%Q 3]).
Proof. reflexivity. Qed.

Lemma blank_query_short_circuits_witness :
  (let (r, calls) :=
     POST ex_embed ex_store ex_env (Parsed (Str ex_spaces) Undefined) in
   status r = 200 /\ success r = false /\ context r = [] /\
   sources r = None /\ calls = [] /\
   (configured ex_env -> error r = None)) /\
  (let (r, calls) :=
     POST ex_embed ex_store ex_env (Parsed (Str []) (Other false)) in
   status r = 200 /\ success r = false /\ context r = [] /\
   sources r = None /\ calls = [] /\
   (configured ex_env -> error r = None)).
Proof.
  split.
  - apply (blank_query_short_circuits ex_embed ex_store ex_env
             (Parsed (Str ex_spaces) Undefined) ex_spaces);
      reflexivity.
  - apply (blank_query_short_circuits ex_embed ex_store ex_env
             (Parsed (Str []) (Other false)) []);
      reflexivity.
Defined.

Lemma internal_failure_is_soft_witness :
  (let r := fst (POST ex_embed_down ex_store ex_env
                   (Parsed (Str ex_question) Undefined)) in
   status r = 200 /\ success r = false /\ context r = [] /\
   error r = Some [53; 48; 51]%N /\ sources r = None) /\
  (let r := fst (POST ex_embed ex_store_down ex_env
                   (Parsed (Str ex_question) Undefined)) in
   status r = 200 /\ success r = false /\ context r = [] /\
   error r = Some msg_unknown_error /\ sources r = None).
Proof.
  split.
  - apply (internal_failure_is_soft ex_embed_down ex_store ex_env
             (Parsed (Str ex_question) Undefined) ex_question
             (ErrorObject [53; 48; 51]%N));
      [split; reflexivity | reflexivity | reflexivity
      | left; reflexivity].
  - apply (internal_failure_is_soft ex_embed ex_store_down ex_env
             (Parsed (Str ex_question) Undefined) ex_question NotAnError);
      [split; reflexivity | reflexivity | reflexivity
      | right; right; exists [1 # 2; 1 # 3]%Q, []; split; reflexivity].
Defined.


Lemma sources_list_every_match_witness :
  exists items,
    sources (fst (POST ex_embed ex_store ex_env
                    (Parsed (Str ex_question) Undefined))) = Some items /\
    length items = length ex_matches.
Proof.
  destruct (sources_list_every_match ex_embed ex_store ex_env
              (Parsed (Str ex_question) Undefined) eq_refl)
    as (q & v & rest & ms & items & _ & Hq & _ & Hs & Hl & _).
  exists items. split; [exact Hs|].
  injection Hq as <-. exact Hl.
Defined.


End EndpointExamples.

(** ** Text mode *)

Section TextInputFacts.

Import TextInput.

Lemma str_eqb_false (a b : jsstring) : a <> b -> str_eqb a b = false.
Proof. intros H. unfold str_eqb. now destruct (list_eq_dec N.eq_dec a b). Qed.

(** C9: a message that is not blank always goes out.  In TALK mode the
    knowledge search is asked once, for the message itself: when the
    fetch rejects, the reply says [success: false] or its context is
    empty, the message is sent as typed; otherwise it is sent followed by
    the reference label and the context.  In REPEAT mode nothing is
    searched and the message is sent as typed.  Should the sender throw,
    the message as typed is sent once more. *)
Theorem text_turn_sends_message (message : jsstring) (taskType : TaskType)
    (taskMode : TaskMode) (fetch : jsstring -> Client.fetched)
    (send_throws : sender -> jsstring -> option thrown) :
  trim message <> [] ->
  let effects :=
    snd (handleSend message taskType taskMode fetch send_throws) in
  exists first again,
    sent effects = first :: again /\
    Forall (eq message) again /\
    first = match taskType with
            | REPEAT => message
            | TALK =>
                match fetch message with
                | Client.Data true (c :: ctx) =>
                    message ++ reference_label ++ c :: ctx
                | _ => message
                end
            end /\
    searched_for effects = match taskType with
                           | TALK => [message]
                           | REPEAT => []
                           end.
Proof.
  intros Hne. unfold handleSend. rewrite (str_eqb_false _ _ Hne).
  unfold finalMessage.
  destruct taskType; [destruct (fetch message) as [|[|] [|c ctx]]|]; simpl;
    match goal with
    | |- context [send_throws ?via ?m] =>
        destruct (send_throws via m) eqn:E1;
        [destruct (send_throws via message) eqn:E2|]
    end; simpl;
    eexists; eexists; (split; [reflexivity|]);
    (split; [repeat constructor|]); split; reflexivity.
Qed.

Lemma text_turn_sends_message_witness :
  exists first again,
    sent (snd (handleSend ex_hello TALK ASYNC
                 (fun _ => Client.Data true ex_context)
                 (fun _ _ => None))) = first :: again /\
    first = ex_hello ++ reference_label ++ ex_context.
Proof.
  destruct (text_turn_sends_message ex_hello TALK ASYNC
              (fun _ => Client.Data true ex_context) (fun _ _ => None))
    as (first & again & Hs & _ & Hf & _); [discriminate|].
  exists first, again. split; [exact Hs | exact Hf].
Defined.

Example handleSend_search_down :
  handleSend ex_hello TALK SYNC (fun _ => Client.Rejected) (fun _ _ => None)
  = (Normal tt,
     [SetIsSearching true; Fetch ex_hello; Send sendMessageSync ex_hello;
      SetMessage []; SetIsSearching false]).
Proof. reflexivity. Qed.

Example handleSend_blank :
  handleSend [32; 32]%N TALK SYNC (fun _ => Client.Rejected)
    (fun _ _ => None) = (Normal tt, []).
Proof. reflexivity. Qed.

End TextInputFacts.

(** ** Voice mode *)

Section VoiceFacts.

Import InteractiveAvatar.

Lemma searches_app (a b : list effect) :
  searches (a ++ b) = (searches a + searches b)%nat.
Proof.
  induction a as [|[t q|t x] a IH]; simpl; [reflexivity| |]; now rewrite IH.
Qed.

Lemma run_app (s : session) (a b : list input) :
  run s (a ++ b) = run (run s a) b.
Proof. apply fold_left_app. Qed.

(** A settling retrieval changes neither the mode nor the captured
    message, and invokes no retrieval. *)
Lemma resume_keeps (s : session) (k : nat) (reply : Client.fetched) :
  isVoice (resume s k reply) = isVoice s /\
  lastUserMessage (resume s k reply) = lastUserMessage s /\
  searches (done (resume s k reply)) = searches (done s).
Proof.
  unfold resume. destruct (nth_error (inflight s) k) as [r|]; simpl;
    [|repeat split].
  repeat split. rewrite searches_app.
  destruct (r_origin r); [destruct (truthy _)|]; simpl; lia.
Qed.

Lemma run_settled_keeps (settles : list input) :
  forallb is_settled settles = true ->
  forall s,
    isVoice (run s settles) = isVoice s /\
    lastUserMessage (run s settles) = lastUserMessage s /\
    searches (done (run s settles)) = searches (done s).
Proof.
  induction settles as [|i l IH]; simpl; intros H s; [repeat split|].
  apply andb_true_iff in H as [Hi Hl].
  destruct i; try discriminate. simpl.
  destruct (IH Hl (resume s k reply)) as (-> & -> & ->).
  apply resume_keeps.
Qed.

Lemma map_nth_error_eq {A B} (f : A -> B) (l l' : list A) (k : nat) :
  map f l = map f l' ->
  option_map f (nth_error l k) = option_map f (nth_error l' k).
Proof. intros H. now rewrite <- !nth_error_map, H. Qed.

Lemma map_remove_nth {A B} (f : A -> B) (l : list A) (k : nat) :
  map f (remove_nth k l) = remove_nth k (map f l).
Proof. unfold remove_nth. now rewrite map_app, firstn_map, skipn_map. Qed.

(** The turn numbers are bookkeeping: two sessions that differ in them
    only keep doing the same things. *)
Lemma step_ignores_turns (a b : session) (i : input) :
  same_but_turns a b -> same_but_turns (step a i) (step b i).
Proof.
  intros (Hv & Hm & Hw & Hd).
  destruct i as [|ev| |ev|k reply]; simpl.
  - repeat split; assumption.
  - unfold on_USER_TALKING_MESSAGE.
    destruct (truthy _); repeat split; assumption.
  - unfold on_USER_STOP. rewrite Hv, Hm.
    destruct (isVoice b && truthy (lastUserMessage b))%bool;
      [|repeat split; assumption].
    unfold same_but_turns. simpl. rewrite !map_app, Hw, Hd, Hm.
    repeat split; assumption.
  - unfold on_USER_END_MESSAGE. rewrite Hv, Hm.
    destruct (truthy _ && isVoice b)%bool; [|repeat split; assumption].
    unfold same_but_turns. simpl. rewrite !map_app, Hw, Hd.
    repeat split; assumption.
  - unfold resume.
    pose proof (map_nth_error_eq waiting _ _ k Hw) as Hk.
    destruct (nth_error (inflight a) k) as [ra|],
             (nth_error (inflight b) k) as [rb|]; try discriminate;
      [|repeat split; assumption].
    injection Hk as Ho Hq.
    unfold same_but_turns. simpl.
    rewrite !map_remove_nth, !map_app, Hw, Hd, Ho.
    repeat split; try assumption.
    f_equal. destruct (r_origin rb); [|reflexivity].
    now destruct (truthy _).
Qed.

Lemma run_settled_turn (settles : list input) :
  forallb is_settled settles = true ->
  forall s, turnSeq (run s settles) = turnSeq s.
Proof.
  induction settles as [|i l IH]; simpl; intros H s; [reflexivity|].
  apply andb_true_iff in H as [Hi Hl].
  destruct i; try discriminate. simpl. rewrite (IH Hl).
  unfold resume. now destruct (nth_error (inflight s) k).
Qed.

(** C1 (as the code has it): in a voice session with a captured
    utterance, [USER_STOP] followed by [USER_END_MESSAGE] for the same
    turn invokes the knowledge search twice.  The [USER_STOP] handler
    invokes it exactly once, for the captured text; the
    [USER_END_MESSAGE] handler invokes it exactly once more, for the
    first of [detail.message], [detail.text], [message] and the captured
    text that is not empty; retrievals that settle in between invoke
    nothing.  In a text session neither handler does anything. *)
Theorem stop_then_end_message_searches_twice (s : session)
    (settles : list input) (event : payload) :
  forallb is_settled settles = true ->
  let s1 := step s USER_STOP in
  let s2 := run s1 settles in
  let s3 := step s2 (USER_END_MESSAGE event) in
  let asked :=
    or_else (detail_message event)
      (or_else (detail_text event)
         (or_else (event_message event)
            (or_else (lastUserMessage s) []))) in
  (isVoice s = true -> lastUserMessage s <> [] ->
     done s1 = done s ++ [Search (turnSeq s) (lastUserMessage s)] /\
     inflight s1 =
       inflight s ++ [{| r_origin := FromUserStop;
                         r_query := lastUserMessage s;
                         r_turn := turnSeq s |}] /\
     searches (done s2) = searches (done s1) /\
     asked <> [] /\
     done s3 = done s2 ++ [Search (turnSeq s) asked] /\
     inflight s3 =
       inflight s2 ++ [{| r_origin := FromUserEndMessage;
                          r_query := asked;
                          r_turn := turnSeq s |}] /\
     searches (done s3) = (searches (done s) + 2)%nat) /\
  (isVoice s = false -> s1 = s /\ s3 = s2).
Proof.
  intros Hs. cbv zeta. split.
  - intros V M. apply truthy_true in M.
    assert (H1 : step s USER_STOP = invoke s FromUserStop (lastUserMessage s)).
    { simpl. unfold on_USER_STOP. now rewrite V, M. }
    rewrite H1.
    destruct (run_settled_keeps settles Hs
                (invoke s FromUserStop (lastUserMessage s)))
      as (Hv & Hm & Hn).
    pose proof (run_settled_turn settles Hs
                  (invoke s FromUserStop (lastUserMessage s))) as Ht.
    simpl in Hv, Hm, Ht.
    set (s2 := run (invoke s FromUserStop (lastUserMessage s)) settles) in *.
    set (asked := or_else (detail_message event)
                    (or_else (detail_text event)
                       (or_else (event_message event)
                          (or_else (lastUserMessage s) [])))).
    assert (T : truthy asked = true).
    { unfold asked, or_else. rewrite M.
      destruct (detail_message event), (detail_text event),
        (event_message event); simpl; auto. }
    assert (H3 : step s2 (USER_END_MESSAGE event) =
                 invoke s2 FromUserEndMessage asked).
    { simpl. unfold on_USER_END_MESSAGE. rewrite Hm. fold asked.
      now rewrite T, Hv, V. }
    rewrite H3. simpl. rewrite Ht.
    split; [reflexivity|]. split; [reflexivity|]. split; [exact Hn|].
    split; [now apply truthy_true|].
    split; [reflexivity|]. split; [reflexivity|].
    rewrite searches_app, Hn. simpl. rewrite searches_app. simpl. lia.
  - intros V.
    assert (H1 : step s USER_STOP = s).
    { simpl. unfold on_USER_STOP. now rewrite V. }
    rewrite H1. split; [reflexivity|].
    destruct (run_settled_keeps settles Hs s) as (Hv & _ & _).
    simpl. unfold on_USER_END_MESSAGE. now rewrite Hv, V, andb_false_r.
Qed.

Lemma stop_then_end_message_searches_twice_witness :
  searches (done (step (run (step (run (start true)
                           [USER_START; USER_TALKING_MESSAGE (said utterance_a)])
                              USER_STOP) [])
                    (USER_END_MESSAGE no_payload))) =
  (searches (done (run (start true)
                     [USER_START; USER_TALKING_MESSAGE (said utterance_a)]))
   + 2)%nat.
Proof.
  destruct (stop_then_end_message_searches_twice
              (run (start true)
                 [USER_START; USER_TALKING_MESSAGE (said utterance_a)])
              [] no_payload eq_refl) as [H _].
  apply H; [reflexivity | discriminate].
Defined.

(** C1 fails as stated: in one voice turn the knowledge search is invoked
    twice, both times for the same utterance. *)
Lemma one_turn_two_searches :
  done (run (start true) one_turn) =
    [Search 1 utterance_a; Search 1 utterance_a] /\
  searches (done (run (start true) one_turn)) <> 1%nat.
Proof. split; [reflexivity | discriminate]. Qed.

Lemma stale_apply_snoc (t : nat) (x : jsstring) (l : list effect) :
  forall before,
    stale_apply before (l ++ [Speak t x]) =
    (stale_apply before l || superseded t (before ++ l))%bool.
Proof.
  induction l as [|[u q|u y] l IH]; intros before; simpl.
  - rewrite app_nil_r. now rewrite orb_false_r.
  - rewrite IH, <- app_assoc. reflexivity.
  - rewrite IH, <- app_assoc. simpl. now rewrite orb_assoc.
Qed.

(** C2 (as the code has it): when a retrieval started by [USER_STOP]
    settles with a context that is not empty, the context is spoken,
    whatever the session has done since the retrieval was started: the
    handler compares no turn number, so the result of a turn that a
    later turn has superseded is applied all the same. *)
Theorem settled_result_is_spoken (s : session) (k : nat) (r : retrieval)
    (reply : Client.fetched) :
  nth_error (inflight s) k = Some r ->
  r_origin r = FromUserStop ->
  Client.searchKnowledge reply <> [] ->
  done (step s (Settled k reply)) =
    done s ++ [Speak (r_turn r) (speak_prefix ++ Client.searchKnowledge reply)]
  /\ (superseded (r_turn r) (done s) = true ->
      stale_apply [] (done (step s (Settled k reply))) = true).
Proof.
  intros Hk Ho Hc. apply truthy_true in Hc.
  assert (E : done (step s (Settled k reply)) =
              done s ++ [Speak (r_turn r)
                           (speak_prefix ++ Client.searchKnowledge reply)]).
  { simpl. unfold resume. rewrite Hk, Ho, Hc. reflexivity. }
  split; [exact E|].
  intros Hsup. rewrite E, stale_apply_snoc. simpl. rewrite Hsup.
  apply orb_true_r.
Qed.

Lemma settled_result_is_spoken_witness :
  done (step (run (start true) (removelast overlapping_turns))
          (Settled 0 (Client.Data true knowledge_a))) =
  [Search 1 utterance_a; Search 2 utterance_b;
   Speak 1 (speak_prefix ++ knowledge_a)] /\
  stale_apply []
    (done (step (run (start true) (removelast overlapping_turns))
             (Settled 0 (Client.Data true knowledge_a)))) = true.
Proof.
  destruct (settled_result_is_spoken
              (run (start true) (removelast overlapping_turns)) 0
              {| r_origin := FromUserStop; r_query := utterance_a;
                 r_turn := 1 |}
              (Client.Data true knowledge_a))
    as [Hd Hs]; [reflexivity | reflexivity | discriminate |].
  split; [exact Hd | apply Hs; reflexivity].
Defined.

(** C2 fails as stated: the result of the first turn is spoken after the
    second turn has started its own retrieval. *)
Lemma stale_result_is_spoken :
  done (run (start true) overlapping_turns) =
    [Search 1 utterance_a; Search 2 utterance_b;
     Speak 1 (speak_prefix ++ knowledge_a)] /\
  stale_apply [] (done (run (start true) overlapping_turns)) = true.
Proof. split; reflexivity. Qed.

End VoiceFacts.

(* ================================================================== *)
(** * Further properties of the code *)
(* ================================================================== *)

(** ** The retrieval endpoint, path by path *)

Section EndpointPaths.

Import KnowledgeSearch.

Variable embeddings_create : jsstring -> completion (list vector).
Variable index_query : vector -> Z -> completion (list scored_match).

Local Abbreviation POST := (POST embeddings_create index_query).

Lemma truthy_trim (q : jsstring) : truthy (trim q) = negb (blank q).
Proof.
  destruct (blank q) eqn:B; simpl.
  - now rewrite (trim_blank q B).
  - apply truthy_true. intros H. apply trim_nil_blank in H. congruence.
Qed.

Lemma configured_dec (e : env) :
  {configured e} +
  {(missing (PINECONE_API_KEY e) || missing (OPENAI_API_KEY e))%bool = true}.
Proof.
  unfold configured.
  destruct (missing (PINECONE_API_KEY e)), (missing (OPENAI_API_KEY e));
    simpl; auto.
Qed.

Lemma POST_unconfigured (e : env) (body : request_body) :
  (missing (PINECONE_API_KEY e) || missing (OPENAI_API_KEY e))%bool = true ->
  POST e body = (respond_empty (Some msg_keys_missing), []).
Proof.
  intros K. unfold KnowledgeSearch.POST, try_block. now rewrite K.
Qed.

(** The reply to a request whose query is the string [q], the keys being
    set. *)
Lemma POST_query (e : env) (body : request_body) (q : jsstring) :
  configured e -> read_query body = ret (Str q) ->
  POST e body =
  if blank q then (respond_empty None, [])
  else
    match embeddings_create q with
    | Throw t => (respond_empty (Some (error_message t)), [EmbeddingsCreate q])
    | Normal [] =>
        (respond_empty (Some msg_undefined_property), [EmbeddingsCreate q])
    | Normal (v :: _) =>
        match index_query v TOP_K with
        | Throw t =>
            (respond_empty (Some (error_message t)),
             [EmbeddingsCreate q; IndexQuery v TOP_K])
        | Normal ms => (found ms, [EmbeddingsCreate q; IndexQuery v TOP_K])
        end
    end.
Proof.
  intros K Hq. unfold KnowledgeSearch.POST.
  rewrite (try_block_query embeddings_create index_query e body q K Hq).
  rewrite truthy_trim, negb_involutive.
  destruct (blank q); [reflexivity|].
  unfold call_embeddings, call_query, bind, first_embedding, ret, raise.
  destruct (embeddings_create q) as [[|v rest]|t]; try reflexivity.
  destruct (index_query v TOP_K) as [ms|t]; reflexivity.
Qed.

(** The reply to a request whose query cannot be read as a string: a JSON
    [null] body, or a query that is a truthy value other than a string. *)
Lemma POST_no_query (e : env) (body : request_body) :
  configured e -> (forall q, read_query body <> ret (Str q)) ->
  exists m, POST e body = (respond_empty (Some m), []).
Proof.
  intros [K1 K2] Hq. unfold KnowledgeSearch.POST, try_block.
  rewrite K1, K2. simpl orb. cbv iota.
  destruct body as [| |q0 qn]; simpl in *.
  - exfalso. now apply (Hq []).
  - eexists. reflexivity.
  - destruct (field_or (field_or q0 qn) (Str [])) as [|s|t];
      [eexists; reflexivity | exfalso; now apply (Hq s)
      | eexists; reflexivity].
Qed.

Lemma read_query_dec (body : request_body) :
  {q | read_query body = ret (Str q)} +
  {forall q, read_query body <> ret (Str q)}.
Proof.
  destruct body as [| |q0 qn]; simpl.
  - left. now exists [].
  - right. intros q. discriminate.
  - destruct (field_or (field_or q0 qn) (Str [])) as [|s|t].
    + right. intros q. discriminate.
    + left. now exists s.
    + right. intros q. discriminate.
Qed.

(** X1: Every reply has status 200 and one of two shapes: a failure carries an
    empty context and no sources, a success carries its sources and no
    error. *)
Theorem POST_reply_shape (e : env) (body : request_body) :
  let r := fst (POST e body) in
  status r = 200 /\
  (if success r then error r = None /\ sources r <> None
   else context r = [] /\ sources r = None).
Proof.
  destruct (POST e body) as [r calls] eqn:H. simpl.
  apply (POST_cases embeddings_create index_query) in H
    as [[err ->] | (q & v & rest & ms & H)].
  - simpl. auto.
  - destruct H as (_ & _ & _ & _ & _ & -> & _). simpl.
    repeat split. discriminate.
Qed.

(** X2: The handler stays off the network exactly when a key is missing, the
    query cannot be read as a string, or the query is blank. *)
Theorem POST_offline_iff (e : env) (body : request_body) :
  snd (POST e body) = [] <->
  (~ configured e \/
   (forall q, read_query body <> ret (Str q)) \/
   (exists q, read_query body = ret (Str q) /\ blank q = true)).
Proof.
  destruct (configured_dec e) as [K|K].
  - destruct (read_query_dec body) as [[q Hq]|Hq].
    + rewrite (POST_query e body q K Hq). split.
      * intros H. right. right. exists q. split; [exact Hq|].
        destruct (blank q); [reflexivity|].
        destruct (embeddings_create q) as [[|v rest]|t]; try discriminate.
        destruct (index_query v TOP_K); discriminate.
      * intros [H | [H | (q' & Hq' & B)]].
        -- contradiction.
        -- exfalso. exact (H q Hq).
        -- rewrite Hq in Hq'. injection Hq' as <-. now rewrite B.
    + destruct (POST_no_query e body K Hq) as [m ->]. simpl.
      split; auto.
  - rewrite (POST_unconfigured e body K). simpl. split; [|reflexivity].
    intros _. left. intros [K1 K2]. rewrite K1, K2 in K. discriminate.
Qed.

(** X3: The vector store is asked only after the embedding service has
    answered, at most once, for the first embedding it returned and for
    three matches; the embedding service is asked at most once, for the
    query as it came (not trimmed). *)
Theorem POST_call_order (e : env) (body : request_body) :
  let calls := snd (POST e body) in
  calls = [] \/
  exists q, read_query body = ret (Str q) /\
    (calls = [EmbeddingsCreate q] /\
       (embeddings_create q = Normal [] \/
        exists t, embeddings_create q = Throw t) \/
     exists v rest, embeddings_create q = Normal (v :: rest) /\
       calls = [EmbeddingsCreate q; IndexQuery v 3]).
Proof.
  destruct (configured_dec e) as [K|K];
    [|rewrite (POST_unconfigured e body K); now left].
  destruct (read_query_dec body) as [[q Hq]|Hq];
    [|destruct (POST_no_query e body K Hq) as [m ->]; now left].
  rewrite (POST_query e body q K Hq).
  destruct (blank q); [now left|]. right. exists q. split; [exact Hq|].
  destruct (embeddings_create q) as [[|v rest]|t]; simpl.
  - left. auto.
  - right. exists v, rest. split; [reflexivity|].
    destruct (index_query v TOP_K); reflexivity.
  - left. split; [reflexivity|]. right. now exists t.
Qed.

(** X4: [query] wins over [question] whenever it is truthy, and [question]
    stands in for it whenever it is falsy (absent, the empty string, [0],
    [false], [null]). *)
Theorem POST_question_fallback (e : env) (query question : field) :
  (field_truthy query = true ->
     POST e (Parsed query question) = POST e (Parsed query Undefined)) /\
  (field_truthy query = false ->
     POST e (Parsed query question) = POST e (Parsed question Undefined)).
Proof.
  assert (H : forall a b,
    field_or (field_or a b) (Str []) = field_or (field_or
      (if field_truthy a then a else b) Undefined) (Str [])).
  { intros a b.
    destruct a as [|[|c s]|[|]], b as [|[|d u]|[|]]; reflexivity. }
  split; intros T; unfold KnowledgeSearch.POST, try_block; simpl read_query;
    rewrite (H query question), T; reflexivity.
Qed.

End EndpointPaths.

(** ** What the context holds *)

Section EndpointContext.

Import KnowledgeSearch.

Variable embeddings_create : jsstring -> completion (list vector).
Variable index_query : vector -> Z -> completion (list scored_match).

Local Abbreviation POST := (POST embeddings_create index_query).

Lemma slice_prefix_firstn (s : jsstring) (n : Z) :
  0 <= n -> slice s 0 n = firstn (Z.to_nat n) s.
Proof.
  intros Hn. unfold slice, len.
  replace (0 <? 0) with false by reflexivity.
  destruct (Z.ltb_spec n 0); [lia|].
  rewrite (Z.min_l 0) by lia. rewrite Z.sub_0_r. simpl skipn.
  destruct (Z.min_spec n (Z.of_nat (length s))) as [[H1 ->]|[H1 ->]].
  - reflexivity.
  - rewrite Nat2Z.id, firstn_all. symmetry. apply firstn_all2. lia.
Qed.

Lemma join_cons (sep p : jsstring) (rest : list jsstring) :
  exists tail, join sep (p :: rest) = p ++ tail.
Proof.
  destruct rest as [|p' rest]; simpl.
  - exists []. now rewrite app_nil_r.
  - eexists. reflexivity.
Qed.

(** The marker before the first text of a context: ["\n\n【参考情報1】: "]. *)
Lemma build_context_head (items : list knowledge_item) :
  (forall it, In it items -> passes it = false) /\ build_context items = [] \/
  exists it tail,
    In it items /\ passes it = true /\
    build_context items = (marker_open ++ [49]%N ++ marker_close) ++ tail.
Proof.
  unfold build_context.
  destruct (filter passes items) as [|it kept] eqn:F.
  - left. split; [|reflexivity]. intros it Hit.
    destruct (passes it) eqn:P; [|reflexivity].
    assert (Hin : In it (filter passes items)) by (apply filter_In; auto).
    rewrite F in Hin. destruct Hin.
  - right.
    assert (Hin : In it (filter passes items)) by (rewrite F; now left).
    apply filter_In in Hin as [Hin P].
    simpl mapi_from.
    destruct (join_cons newline (render 0 it) (mapi_from 1 render kept))
      as [tail ->].
    exists it, (text it ++ tail). split; [exact Hin|]. split; [exact P|].
    unfold render. simpl. reflexivity.
Qed.

(** X5: The cut at 500 is a hard one: the context is the first 500 code units
    of the concatenation built from the listed sources, all of it when it
    is no longer than that. *)
Theorem context_is_cut_at_500 (e : env) (body : request_body)
    (items : list knowledge_item) :
  sources (fst (POST e body)) = Some items ->
  let full := build_context items in
  context (fst (POST e body)) = firstn 500 full /\
  len (context (fst (POST e body))) = Z.min 500 (len full) /\
  (len full <= 500 -> context (fst (POST e body)) = full).
Proof.
  destruct (POST e body) as [r calls] eqn:H. simpl.
  apply (POST_cases embeddings_create index_query) in H
    as [[err ->] | (q & v & rest & ms & H)]; [discriminate|].
  destruct H as (_ & _ & _ & _ & _ & -> & _). simpl.
  intros [= <-].
  rewrite slice_prefix_firstn by (unfold MAX_CONTEXT; lia).
  change (Z.to_nat MAX_CONTEXT) with 500%nat.
  split; [reflexivity|]. split.
  - unfold len. rewrite length_firstn. lia.
  - intros Hle. apply firstn_all2. unfold len in Hle. lia.
Qed.

(** X6: The browser finds knowledge exactly when the reply lists a source
    whose score exceeds the threshold, and what it finds then starts with
    the marker of the first text. *)
Theorem knowledge_found_iff (e : env) (body : request_body) :
  let found_text :=
    Client.searchKnowledge (Client.of_response (fst (POST e body))) in
  (found_text <> [] <->
   exists items it,
     sources (fst (POST e body)) = Some items /\ In it items /\
     (RELEVANCE_THRESHOLD < score it)%Q) /\
  (found_text = [] \/
   exists tail,
     found_text = (marker_open ++ [49]%N ++ marker_close) ++ tail).
Proof.
  destruct (POST e body) as [r calls] eqn:H. simpl.
  apply (POST_cases embeddings_create index_query) in H
    as [[err ->] | (q & v & rest & ms & H)].
  - simpl. split; [|now left]. split; [congruence|].
    intros (items & it & Hs & _). discriminate.
  - destruct H as (_ & _ & _ & _ & _ & -> & _).
    unfold Client.of_response, Client.searchKnowledge, found. simpl.
    rewrite slice_prefix_firstn by (unfold MAX_CONTEXT; lia).
    change (Z.to_nat MAX_CONTEXT) with 500%nat.
    destruct (build_context_head (map to_item ms))
      as [[Hnone ->] | (it & tail & Hin & P & ->)].
    + simpl. split; [|now left]. split; [congruence|].
      intros (items & it & [= <-] & Hin & Hs).
      apply passes_spec in Hs. rewrite (Hnone it Hin) in Hs. discriminate.
    + rewrite firstn_app. simpl.
      split; [|right; eexists; reflexivity].
      split; [|discriminate].
      intros _. exists (map to_item ms), it.
      split; [reflexivity|]. split; [exact Hin|]. now apply passes_spec.
Qed.

(** X7: [initClients] builds a client only where none exists and a key is set:
    it never replaces a client, running it twice changes nothing more,
    and with both keys set both clients exist afterwards, as the handler
    takes for granted. *)
Theorem initClients_once (e : env) (c : clients) :
  initClients e (initClients e c) = initClients e c /\
  (forall k, pineconeClient c = Some k ->
             pineconeClient (initClients e c) = Some k) /\
  (forall k, openaiClient c = Some k ->
             openaiClient (initClients e c) = Some k) /\
  (missing (PINECONE_API_KEY e) = false ->
     pineconeClient (initClients e c) <> None) /\
  (missing (OPENAI_API_KEY e) = false ->
     openaiClient (initClients e c) <> None).
Proof.
  destruct c as [[p|] [o|]], e as [[[|a pk]|] [[|b ok]|]];
    repeat split; simpl; intros; congruence.
Qed.

End EndpointContext.

Lemma context_is_cut_at_500_witness :
  KnowledgeSearch.context (fst (KnowledgeSearch.POST KnowledgeSearch.ex_embed
                  KnowledgeSearch.ex_store KnowledgeSearch.ex_env
                  (KnowledgeSearch.Parsed
                     (KnowledgeSearch.Str KnowledgeSearch.ex_question)
                     KnowledgeSearch.Undefined))) =
  firstn 500 (KnowledgeSearch.build_context
                (map KnowledgeSearch.to_item KnowledgeSearch.ex_matches)).
Proof.
  refine (proj1 (context_is_cut_at_500 KnowledgeSearch.ex_embed
           KnowledgeSearch.ex_store KnowledgeSearch.ex_env
           (KnowledgeSearch.Parsed
              (KnowledgeSearch.Str KnowledgeSearch.ex_question)
              KnowledgeSearch.Undefined)
           (map KnowledgeSearch.to_item KnowledgeSearch.ex_matches)
           eq_refl)).
Defined.

(** ** The voice session over whole runs *)

Section VoiceRuns.

Import InteractiveAvatar.

Lemma speaks_app (a b : list effect) :
  speaks (a ++ b) = (speaks a + speaks b)%nat.
Proof.
  induction a as [|[t q|t x] a IH]; simpl; [reflexivity| |]; now rewrite IH.
Qed.

Lemma run_snoc (s : session) (l : list input) (i : input) :
  run s (l ++ [i]) = step (run s l) i.
Proof. unfold run. now rewrite fold_left_app. Qed.

Lemma length_remove_nth {A} (l : list A) (k : nat) (x : A) :
  nth_error l k = Some x -> S (length (remove_nth k l)) = length l.
Proof.
  intros H. unfold remove_nth.
  assert (Hk : (k < length l)%nat) by (apply nth_error_Some; congruence).
  rewrite length_app, length_firstn, length_skipn. lia.
Qed.

(** X8: A text session never invokes the knowledge search and never makes the
    avatar speak, whatever events arrive. *)
Theorem text_session_is_silent (inputs : list input) :
  done (run (start false) inputs) = [] /\
  inflight (run (start false) inputs) = [].
Proof.
  assert (H : forall s, isVoice s = false -> inflight s = [] ->
            forall i, isVoice (step s i) = false /\
                      inflight (step s i) = [] /\
                      done (step s i) = done s).
  { intros s V F [|ev| |ev|k reply]; simpl.
    - auto.
    - unfold on_USER_TALKING_MESSAGE. destruct (truthy _); simpl; auto.
    - unfold on_USER_STOP. rewrite V. simpl. auto.
    - unfold on_USER_END_MESSAGE. rewrite V, andb_false_r. auto.
    - unfold resume. rewrite F. destruct k; simpl; auto. }
  assert (G : forall l s, isVoice s = false -> inflight s = [] ->
            done (run s l) = done s /\ inflight (run s l) = []).
  { induction l as [|i l IH]; intros s V F; simpl; [auto|].
    destruct (H s V F i) as (V' & F' & D').
    destruct (IH (step s i) V' F') as [D'' F'']. split; congruence. }
  apply (G inputs (start false)); reflexivity.
Qed.

(** X9: Every retrieval is accounted for: the avatar has been asked to speak
    at most once for each retrieval that has settled, so the speaks and
    the retrievals still in flight never outnumber the searches. *)
Theorem retrievals_accounted (voice : bool) (inputs : list input) :
  let s := run (start voice) inputs in
  (speaks (done s) + length (inflight s) <= searches (done s))%nat.
Proof.
  simpl. induction inputs as [|i l IH] using rev_ind; [simpl; lia|].
  rewrite run_snoc. set (s := run (start voice) l) in *.
  destruct i as [|ev| |ev|k reply]; simpl.
  - exact IH.
  - unfold on_USER_TALKING_MESSAGE. destruct (truthy _); exact IH.
  - unfold on_USER_STOP. destruct (_ && _)%bool; [|exact IH]. simpl.
    rewrite speaks_app, searches_app, length_app. simpl. lia.
  - unfold on_USER_END_MESSAGE. destruct (_ && _)%bool; [|exact IH]. simpl.
    rewrite speaks_app, searches_app, length_app. simpl. lia.
  - unfold resume. destruct (nth_error (inflight s) k) as [r|] eqn:E;
      [|exact IH].
    simpl. pose proof (length_remove_nth _ _ _ E) as L.
    rewrite speaks_app, searches_app.
    destruct (r_origin r); [destruct (truthy _)|]; simpl; lia.
Qed.

(** X10: The knowledge search is never asked about the empty string, and the
    avatar is only ever asked to speak the prefix followed by the context,
    not empty, that one of the delivered replies held. *)
Theorem effects_have_content (voice : bool) (inputs : list input) :
  Forall (fun e =>
            match e with
            | Search _ q => q <> []
            | Speak _ x =>
                exists k reply,
                  In (Settled k reply) inputs /\
                  Client.searchKnowledge reply <> [] /\
                  x = speak_prefix ++ Client.searchKnowledge reply
            end)
         (done (run (start voice) inputs)).
Proof.
  induction inputs as [|i l IH] using rev_ind; [constructor|].
  rewrite run_snoc. set (s := run (start voice) l) in *.
  assert (IH' : Forall (fun e =>
            match e with
            | Search _ q => q <> []
            | Speak _ x =>
                exists k reply,
                  In (Settled k reply) (l ++ [i]) /\
                  Client.searchKnowledge reply <> [] /\
                  x = speak_prefix ++ Client.searchKnowledge reply
            end) (done s)).
  { eapply Forall_impl; [|exact IH]. intros [t q|t x]; [auto|].
    intros (k & reply & Hin & H). exists k, reply.
    split; [apply in_or_app; now left | exact H]. }
  destruct i as [|ev| |ev|k reply]; simpl.
  - exact IH'.
  - unfold on_USER_TALKING_MESSAGE. destruct (truthy _); exact IH'.
  - unfold on_USER_STOP.
    destruct (isVoice s); simpl; [|exact IH'].
    destruct (truthy (lastUserMessage s)) eqn:T; [|exact IH']. simpl.
    apply Forall_app. split; [exact IH'|]. constructor; [|constructor].
    now apply truthy_true.
  - unfold on_USER_END_MESSAGE.
    destruct (truthy _) eqn:T; simpl; [|exact IH'].
    destruct (isVoice s); [|exact IH']. simpl.
    apply Forall_app. split; [exact IH'|]. constructor; [|constructor].
    now apply truthy_true.
  - unfold resume. destruct (nth_error (inflight s) k) as [r|]; [|exact IH'].
    simpl. apply Forall_app. split; [exact IH'|].
    destruct (r_origin r); [|constructor].
    destruct (truthy (Client.searchKnowledge reply)) eqn:T; [|constructor].
    constructor; [|constructor]. exists k, reply.
    split; [apply in_or_app; right; now left|].
    split; [now apply truthy_true | reflexivity].
Qed.

(** Interim transcripts change the captured message only. *)
Lemma run_talking (evs : list payload) :
  forall s,
    let s' := run s (map USER_TALKING_MESSAGE evs) in
    isVoice s' = isVoice s /\ inflight s' = inflight s /\
    done s' = done s /\ turnSeq s' = turnSeq s /\
    lastUserMessage s' =
      fold_left (fun kept ev => or_else (transcript ev) kept) evs
        (lastUserMessage s).
Proof.
  induction evs as [|ev evs IH]; intros s; simpl; [repeat split|].
  destruct (IH (on_USER_TALKING_MESSAGE s ev)) as (-> & -> & -> & -> & ->).
  unfold on_USER_TALKING_MESSAGE. fold (transcript ev). unfold or_else at 3.
  destruct (truthy (transcript ev)); simpl; repeat split.
Qed.

Lemma fold_blank_transcripts (evs : list payload) (kept : jsstring) :
  Forall (fun ev => transcript ev = []) evs ->
  fold_left (fun kept ev => or_else (transcript ev) kept) evs kept = kept.
Proof.
  induction 1 as [|ev evs Hev _ IH]; simpl; [reflexivity|].
  now rewrite Hev.
Qed.

(** X11: Last write wins: a voice turn is searched for the last interim
    transcript that was not empty, alone and as it came; earlier
    transcripts and what the turn before had captured play no part. *)
Theorem stop_searches_last_transcript (s : session)
    (earlier later : list payload) (ev : payload) :
  isVoice s = true ->
  transcript ev <> [] ->
  Forall (fun e => transcript e = []) later ->
  done (run s (USER_START ::
                 map USER_TALKING_MESSAGE (earlier ++ ev :: later) ++
                 [USER_STOP])) =
  done s ++ [Search (S (turnSeq s)) (transcript ev)].
Proof.
  intros V T L. change (?a :: ?l ++ ?r) with ((a :: l) ++ r).
  rewrite run_snoc. simpl run.
  destruct (run_talking (earlier ++ ev :: later) (on_USER_START s))
    as (Hv & _ & Hd & Ht & Hm).
  simpl step. unfold on_USER_STOP. rewrite Hv, Hm. simpl isVoice. rewrite V.
  rewrite fold_left_app. simpl fold_left.
  rewrite (fold_blank_transcripts later _ L).
  apply truthy_true in T. unfold or_else at 1. rewrite T. simpl.
  rewrite T. unfold or_else at 1. rewrite T. simpl.
  rewrite Hd, Ht. reflexivity.
Qed.

(** X12: [USER_START] discards what was captured: a turn whose interim events
    carry no text is not searched at [USER_STOP], whatever the turn before
    had left behind. *)
Theorem empty_turn_is_not_searched (s : session) (evs : list payload) :
  Forall (fun e => transcript e = []) evs ->
  done (run s (USER_START :: map USER_TALKING_MESSAGE evs ++ [USER_STOP])) =
  done s.
Proof.
  intros L. change (?a :: ?l ++ ?r) with ((a :: l) ++ r).
  rewrite run_snoc. simpl run.
  destruct (run_talking evs (on_USER_START s)) as (Hv & _ & Hd & Ht & Hm).
  simpl step. unfold on_USER_STOP. rewrite Hm.
  rewrite (fold_blank_transcripts evs _ L). simpl.
  rewrite andb_false_r. exact Hd.
Qed.

End VoiceRuns.

Lemma stop_searches_last_transcript_witness :
  InteractiveAvatar.done
    (InteractiveAvatar.run (InteractiveAvatar.start true)
       (InteractiveAvatar.USER_START ::
          map InteractiveAvatar.USER_TALKING_MESSAGE
            ([InteractiveAvatar.said InteractiveAvatar.utterance_a] ++
             InteractiveAvatar.said InteractiveAvatar.utterance_b ::
             [InteractiveAvatar.no_payload]) ++
          [InteractiveAvatar.USER_STOP])) =
  [] ++ [InteractiveAvatar.Search 1 InteractiveAvatar.utterance_b].
Proof.
  apply (stop_searches_last_transcript (InteractiveAvatar.start true)
           [InteractiveAvatar.said InteractiveAvatar.utterance_a]
           [InteractiveAvatar.no_payload]
           (InteractiveAvatar.said InteractiveAvatar.utterance_b));
    [reflexivity | discriminate | repeat constructor].
Defined.

Lemma empty_turn_is_not_searched_witness :
  InteractiveAvatar.done
    (InteractiveAvatar.run
       (InteractiveAvatar.run (InteractiveAvatar.start true)
          [InteractiveAvatar.USER_TALKING_MESSAGE
             (InteractiveAvatar.said InteractiveAvatar.utterance_a)])
       (InteractiveAvatar.USER_START ::
          map InteractiveAvatar.USER_TALKING_MESSAGE
            [InteractiveAvatar.no_payload] ++
          [InteractiveAvatar.USER_STOP])) =
  InteractiveAvatar.done
    (InteractiveAvatar.run (InteractiveAvatar.start true)
       [InteractiveAvatar.USER_TALKING_MESSAGE
          (InteractiveAvatar.said InteractiveAvatar.utterance_a)]).
Proof.
  apply (empty_turn_is_not_searched
           (InteractiveAvatar.run (InteractiveAvatar.start true)
              [InteractiveAvatar.USER_TALKING_MESSAGE
                 (InteractiveAvatar.said InteractiveAvatar.utterance_a)])
           [InteractiveAvatar.no_payload]).
  repeat constructor.
Defined.

(** ** Text mode, effect by effect *)

Section TextInputEffects.

Import TextInput.

Variable message : jsstring.
Variable taskType : TaskType.
Variable taskMode : TaskMode.
Variable fetch : jsstring -> Client.fetched.
Variable send_throws : sender -> jsstring -> option thrown.

Local Abbreviation run_handleSend :=
  (handleSend message taskType taskMode fetch send_throws).

Lemma str_eqb_true (a b : jsstring) : a = b -> str_eqb a b = true.
Proof. intros ->. unfold str_eqb. now destruct (list_eq_dec N.eq_dec b b). Qed.

(** What [handleSend] does to a message that is not blank. *)
Lemma handleSend_effects :
  trim message <> [] ->
  let final := fst (finalMessage message taskType fetch) in
  let searched := snd (finalMessage message taskType fetch) in
  let via := pick taskType taskMode in
  run_handleSend =
  match send_throws via final with
  | None =>
      (Normal tt,
       SetIsSearching true ::
         (searched ++ [Send via final; SetMessage []]) ++
         [SetIsSearching false])
  | Some _ =>
      match send_throws via message with
      | None =>
          (Normal tt,
           SetIsSearching true ::
             (searched ++ [Send via final; Send via message; SetMessage []])
             ++ [SetIsSearching false])
      | Some e =>
          (Throw e,
           SetIsSearching true ::
             (searched ++ [Send via final; Send via message]) ++
             [SetIsSearching false])
      end
  end.
Proof.
  intros Hne. unfold handleSend. rewrite (str_eqb_false _ _ Hne).
  destruct (finalMessage message taskType fetch) as [final searched]. simpl.
  destruct (send_throws _ final);
    [destruct (send_throws _ message)|];
    rewrite <- ?app_assoc; reflexivity.
Qed.

Lemma finalMessage_searched :
  Forall (fun ef => exists q, ef = Fetch q)
         (snd (finalMessage message taskType fetch)).
Proof.
  unfold finalMessage. destruct taskType; simpl; repeat constructor.
  now exists message.
Qed.

(** X13: A blank message is dropped: [handleSend] then does nothing at all, and
    it does nothing only then. *)
Theorem handleSend_idle_iff :
  snd run_handleSend = [] <-> blank message = true.
Proof.
  split.
  - intros H. destruct (blank message) eqn:B; [reflexivity|].
    assert (Hne : trim message <> []).
    { intros E. apply trim_nil_blank in E. congruence. }
    rewrite (handleSend_effects Hne) in H.
    destruct (send_throws _ _); [destruct (send_throws _ _)|]; discriminate.
  - intros B. unfold handleSend.
    now rewrite (str_eqb_true _ _ (trim_blank message B)).
Qed.

(** X14: The searching flag brackets the work: it is raised first and lowered
    last, also when a sender throws for the second time, and is not
    touched in between; the input is cleared exactly when [handleSend]
    ends normally. *)
Theorem handleSend_searching_bracket :
  trim message <> [] ->
  exists between,
    snd run_handleSend =
      SetIsSearching true :: between ++ [SetIsSearching false] /\
    (forall b, ~ In (SetIsSearching b) between) /\
    (In (SetMessage []) between <-> fst run_handleSend = Normal tt).
Proof.
  intros Hne. rewrite (handleSend_effects Hne).
  pose proof finalMessage_searched as Hs.
  assert (Hn : forall ef,
    In ef (snd (finalMessage message taskType fetch)) ->
    exists q, ef = Fetch q).
  { apply Forall_forall. exact Hs. }
  destruct (send_throws _ _); [destruct (send_throws _ message)|];
    eexists; (split; [reflexivity|]); simpl fst; split.
  - intros b Hin. apply in_app_or in Hin as [Hin|Hin].
    + apply Hn in Hin as [q Hq]. discriminate.
    + simpl in Hin. intuition discriminate.
  - split; [|discriminate]. intros Hin. exfalso.
    apply in_app_or in Hin as [Hin|Hin].
    + apply Hn in Hin as [q Hq]. discriminate.
    + simpl in Hin. intuition discriminate.
  - intros b Hin. apply in_app_or in Hin as [Hin|Hin].
    + apply Hn in Hin as [q Hq]. discriminate.
    + simpl in Hin. intuition discriminate.
  - split; [reflexivity|]. intros _. apply in_or_app. right. simpl. auto.
  - intros b Hin. apply in_app_or in Hin as [Hin|Hin].
    + apply Hn in Hin as [q Hq]. discriminate.
    + simpl in Hin. intuition discriminate.
  - split; [reflexivity|]. intros _. apply in_or_app. right. simpl. auto.
Qed.

Lemma sent_app (a b : list effect) : sent (a ++ b) = sent a ++ sent b.
Proof.
  induction a as [|[f|q|v t|t] a IH]; simpl; try exact IH; [reflexivity|].
  now rewrite IH.
Qed.

Lemma sent_searched : sent (snd (finalMessage message taskType fetch)) = [].
Proof. unfold finalMessage. now destruct taskType. Qed.

(** X15: One run of [handleSend] uses one sender, fixed by the task type and
    the task mode, sends once, and sends a second time only after the
    first call threw. *)
Theorem handleSend_one_sender :
  trim message <> [] ->
  let effects := snd run_handleSend in
  Forall (fun ef => match ef with
                    | Send via _ =>
                        via = match taskType, taskMode with
                              | TALK, ASYNC => sendMessage
                              | TALK, SYNC => sendMessageSync
                              | REPEAT, ASYNC => repeatMessage
                              | REPEAT, SYNC => repeatMessageSync
                              end
                    | _ => True
                    end) effects /\
  exists first,
    (sent effects = [first] /\
     send_throws (pick taskType taskMode) first = None) \/
    (sent effects = [first; message] /\
     send_throws (pick taskType taskMode) first <> None).
Proof.
  intros Hne. simpl. rewrite (handleSend_effects Hne).
  assert (Hp : pick taskType taskMode =
               match taskType, taskMode with
               | TALK, ASYNC => sendMessage
               | TALK, SYNC => sendMessageSync
               | REPEAT, ASYNC => repeatMessage
               | REPEAT, SYNC => repeatMessageSync
               end) by now destruct taskType, taskMode.
  assert (Hf : Forall (fun ef => match ef with
                    | Send via _ =>
                        via = match taskType, taskMode with
                              | TALK, ASYNC => sendMessage
                              | TALK, SYNC => sendMessageSync
                              | REPEAT, ASYNC => repeatMessage
                              | REPEAT, SYNC => repeatMessageSync
                              end
                    | _ => True
                    end) (snd (finalMessage message taskType fetch))).
  { eapply Forall_impl; [|exact finalMessage_searched].
    intros ef [q ->]. exact I. }
  destruct (send_throws _ (fst _)) eqn:E1;
    [destruct (send_throws _ message) eqn:E2|]; simpl snd; split;
    try (constructor; [exact I|];
         rewrite <- app_assoc; apply Forall_app; split; [exact Hf|];
         repeat constructor; exact Hp);
    exists (fst (finalMessage message taskType fetch));
    simpl sent; rewrite !sent_app, sent_searched; simpl.
  - right. split; [reflexivity | congruence].
  - right. split; [reflexivity | congruence].
  - left. split; [reflexivity | exact E1].
Qed.

End TextInputEffects.

Lemma handleSend_searching_bracket_witness :
  exists between,
    snd (TextInput.handleSend TextInput.ex_hello TextInput.TALK
           TextInput.SYNC (fun _ => Client.Rejected) (fun _ _ => None)) =
      TextInput.SetIsSearching true :: between ++
        [TextInput.SetIsSearching false] /\
    In (TextInput.SetMessage []) between.
Proof.
  destruct (handleSend_searching_bracket TextInput.ex_hello TextInput.TALK
              TextInput.SYNC (fun _ => Client.Rejected) (fun _ _ => None))
    as (between & Hb & _ & Hm); [discriminate|].
  exists between. split; [exact Hb | apply Hm; reflexivity].
Defined.

Lemma handleSend_one_sender_witness :
  exists first,
    TextInput.sent
      (snd (TextInput.handleSend TextInput.ex_hello TextInput.REPEAT
              TextInput.ASYNC (fun _ => Client.Rejected)
              (fun _ _ => Some NotAnError))) = [first; TextInput.ex_hello].
Proof.
  destruct (handleSend_one_sender TextInput.ex_hello TextInput.REPEAT
              TextInput.ASYNC (fun _ => Client.Rejected)
              (fun _ _ => Some NotAnError))
    as (_ & first & [[_ H] | [H _]]); [discriminate | discriminate |].
  exists first. exact H.
Defined.

(** ** Text mode over the endpoint *)

Section TextOverEndpoint.

Import KnowledgeSearch TextInput.

Variable embeddings_create : jsstring -> completion (list vector).
Variable index_query : vector -> Z -> completion (list scored_match).
Variable e : env.

Lemma len_app (a b : jsstring) : len (a ++ b) = len a + len b.
Proof. unfold len. rewrite length_app. lia. Qed.

Lemma via_endpoint_short (q : jsstring) :
  len (Client.searchKnowledge
         (Client.via_endpoint embeddings_create index_query e q)) <= 500.
Proof.
  apply (retrieved_context_at_most_500 embeddings_create index_query).
Qed.

(** X16: With the endpoint behind the fetch, whatever reaches a sender is the
    typed message, or the typed message with at most 519 code units of
    label and context behind it. *)
Theorem sent_text_is_bounded (message : jsstring) (taskType : TaskType)
    (taskMode : TaskMode) (send_throws : sender -> jsstring -> option thrown) :
  Forall (fun t => exists extra, t = message ++ extra /\ len extra <= 519)
    (sent (snd (handleSend message taskType taskMode
                  (Client.via_endpoint embeddings_create index_query e)
                  send_throws))).
Proof.
  assert (Hm : exists extra, message = message ++ extra /\ len extra <= 519).
  { exists []. rewrite app_nil_r. split; [reflexivity | unfold len; simpl; lia]. }
  destruct (list_eq_dec N.eq_dec (trim message) []) as [E|Hne].
  { unfold handleSend. rewrite (str_eqb_true _ _ E). constructor. }
  rewrite (handleSend_effects message taskType taskMode _ send_throws Hne).
  assert (Hf : exists extra,
    fst (finalMessage message taskType
           (Client.via_endpoint embeddings_create index_query e)) =
    message ++ extra /\ len extra <= 519).
  { unfold finalMessage. destruct taskType; simpl; [|exact Hm].
    destruct (truthy _); [|exact Hm].
    exists (reference_label ++
            Client.searchKnowledge
              (Client.via_endpoint embeddings_create index_query e message)).
    split; [reflexivity|].
    rewrite len_app. pose proof (via_endpoint_short message) as H.
    change (len reference_label) with 19. lia. }
  destruct (send_throws _ (fst _)); [destruct (send_throws _ message)|];
    simpl snd; simpl sent; rewrite !sent_app, sent_searched; simpl;
    repeat constructor; assumption.
Qed.

End TextOverEndpoint.

(** ** More on strings *)

Section StringMore.

Lemma trimStart_suffix (s : jsstring) : exists pre, s = pre ++ trimStart s.
Proof.
  induction s as [|c r [pre IH]]; simpl.
  - now exists [].
  - destruct (is_space c).
    + exists (c :: pre). simpl. now rewrite <- IH.
    + now exists [].
Qed.

Lemma trimStart_fixed (c : N) (r : jsstring) :
  is_space c = false -> trimStart (c :: r) = c :: r.
Proof. intros H. simpl. now rewrite H. Qed.

Lemma trimStart_idem (s : jsstring) : trimStart (trimStart s) = trimStart s.
Proof.
  destruct (trimStart s) as [|c r] eqn:E; [reflexivity|].
  apply trimStart_fixed. exact (trimStart_head s c r E).
Qed.

Lemma trimStart_keeps_last (l : jsstring) (c : N) :
  is_space c = false -> exists w, trimStart (l ++ [c]) = w ++ [c].
Proof.
  intros H. induction l as [|d l [w IH]]; simpl.
  - rewrite H. now exists [].
  - destruct (is_space d); [now exists w|].
    now exists (d :: l).
Qed.

Lemma trim_infix (s : jsstring) : infix (trim s) s.
Proof.
  unfold trim, trimEnd.
  destruct (trimStart_suffix s) as [pre Hpre].
  destruct (trimStart_suffix (rev (trimStart s))) as [post Hpost].
  exists pre, (rev post).
  rewrite <- rev_app_distr, <- Hpost, rev_involutive. exact Hpre.
Qed.

Lemma trim_idem (s : jsstring) : trim (trim s) = trim s.
Proof.
  unfold trim, trimEnd.
  destruct (trimStart s) as [|c r] eqn:E; [reflexivity|].
  assert (Hc : is_space c = false) by exact (trimStart_head s c r E).
  change (rev (c :: r)) with (rev r ++ [c]).
  destruct (trimStart_keeps_last (rev r) c Hc) as [w Hw].
  pose proof (trimStart_idem (rev r ++ [c])) as Hu.
  rewrite Hw in *.
  rewrite (rev_app_distr w [c]). change (rev [c] ++ rev w) with (c :: rev w).
  rewrite (trimStart_fixed c (rev w) Hc).
  change (rev (c :: rev w)) with (rev (rev w) ++ [c]).
  rewrite rev_involutive, Hu. now rewrite rev_app_distr.
Qed.

Lemma infix_len (c s : jsstring) : infix c s -> len c <= len s.
Proof.
  intros (a & b & ->). unfold len. rewrite !length_app. lia.
Qed.

Lemma infix_trans (a b c : jsstring) : infix a b -> infix b c -> infix a c.
Proof.
  intros (p & q & ->) (p' & q' & ->).
  exists (p' ++ p), (q ++ q'). now rewrite <- !app_assoc.
Qed.

Lemma slice_infix (s : jsstring) (a b : Z) : infix (slice s a b) s.
Proof.
  unfold slice.
  set (m := Z.to_nat _). set (n := Z.to_nat _).
  exists (firstn n s), (skipn m (skipn n s)).
  now rewrite (firstn_skipn m), (firstn_skipn n).
Qed.

(** A window that starts inside the text. *)
Lemma slice_window (s : jsstring) (i size : Z) :
  0 <= i -> 0 <= size ->
  slice s i (i + size) = firstn (Z.to_nat size) (skipn (Z.to_nat i) s).
Proof.
  intros Hi Hs. unfold slice, len.
  destruct (Z.ltb_spec i 0); [lia|].
  destruct (Z.ltb_spec (i + size) 0); [lia|].
  destruct (Z.le_gt_cases (Z.of_nat (length s)) i) as [Hout|Hin].
  - rewrite (Z.min_r i), (Z.min_r (i + size)) by lia.
    rewrite Z.sub_diag. change (Z.to_nat 0) with 0%nat. rewrite firstn_O.
    rewrite (skipn_all2 s) by lia. now rewrite firstn_nil.
  - rewrite (Z.min_l i) by lia.
    destruct (Z.le_gt_cases (i + size) (Z.of_nat (length s))) as [Hfit|Hcut].
    + rewrite Z.min_l by lia. f_equal. lia.
    + rewrite Z.min_r by lia.
      rewrite !firstn_all2; [reflexivity | |]; rewrite length_skipn; lia.
Qed.

Lemma solid_infix (c s : jsstring) : infix c s -> solid s = true -> solid c = true.
Proof.
  intros (a & b & ->). unfold solid. rewrite !forallb_app.
  intros H. apply andb_true_iff in H as [_ H].
  now apply andb_true_iff in H as [H _].
Qed.

Lemma trimStart_solid (s : jsstring) : solid s = true -> trimStart s = s.
Proof.
  destruct s as [|c r]; [reflexivity|]. simpl.
  intros H. apply andb_true_iff in H as [H _].
  apply negb_true_iff in H. now rewrite H.
Qed.

Lemma solid_rev (s : jsstring) : solid (rev s) = solid s.
Proof.
  unfold solid. induction s as [|c r IH]; simpl; [reflexivity|].
  rewrite forallb_app, IH. simpl. rewrite andb_true_r. apply andb_comm.
Qed.

Lemma trim_solid (s : jsstring) : solid s = true -> trim s = s.
Proof.
  intros H. unfold trim, trimEnd. rewrite (trimStart_solid s H).
  rewrite trimStart_solid by now rewrite solid_rev.
  apply rev_involutive.
Qed.

End StringMore.

(** ** The chunks of a text *)

Section ChunkerMore.

Import Chunker.

Variable text : jsstring.
Variables size overlap : Z.

(** A property of every window that yields a chunk is a property of every
    chunk returned. *)
Lemma splitText_loop_all (P : jsstring -> Prop) :
  (forall i, 0 <= i -> i < len text ->
     truthy (trim (slice text i (i + size))) = true ->
     P (trim (slice text i (i + size)))) ->
  forall fuel i chunks out,
    0 <= i ->
    splitText_loop fuel text size overlap i chunks = Some (Normal out) ->
    Forall P chunks -> Forall P out.
Proof.
  intros HP. induction fuel as [|fuel IH]; intros i chunks out Hi H Hc;
    [discriminate|].
  destruct (Z.le_gt_cases (size - overlap) 0) as [Hstuck|Hgo].
  - destruct (Z.lt_ge_cases i (len text)) as [Hlt|Hge].
    + rewrite (splitText_loop_stuck text size overlap Hstuck) in H
        by exact Hlt.
      discriminate.
    + simpl in H. destruct (Z.ltb_spec i (len text)); [lia|].
      now injection H as <-.
  - simpl in H. destruct (Z.ltb_spec i (len text)) as [Hlt|Hge].
    + apply IH in H; [exact H | lia |].
      destruct (truthy _) eqn:T; [|exact Hc].
      apply Forall_app. split; [exact Hc|].
      constructor; [|constructor]. now apply HP.
    + now injection H as <-.
Qed.

(** X17: Every chunk is a piece of the text: not empty, without white space at
    either end, a run of consecutive code units of the text, and no longer
    than the chunk size. *)
Theorem chunks_are_trimmed_pieces (fuel : nat) (chunks : list jsstring) :
  splitText fuel text size overlap = Some (Normal chunks) ->
  Forall (fun c => c <> [] /\ trim c = c /\ infix c text /\
                   (0 <= size -> len c <= size)) chunks.
Proof.
  intros H.
  apply (splitText_loop_all _) with (fuel := fuel) (i := 0) (chunks := []);
    [| lia | exact H | constructor].
  intros i Hi Hlt T. split; [now apply truthy_true|].
  split; [apply trim_idem|]. split.
  - apply (infix_trans _ (slice text i (i + size)));
      [apply trim_infix | apply slice_infix].
  - intros Hs.
    apply (Z.le_trans _ (len (slice text i (i + size))));
      [apply infix_len, trim_infix|].
    rewrite slice_window by lia. unfold len. rewrite length_firstn. lia.
Qed.

(** The loop yields at most one chunk for each window it visits. *)
Lemma splitText_loop_count :
  0 < size - overlap ->
  forall fuel i chunks out,
    splitText_loop fuel text size overlap i chunks = Some (Normal out) ->
    (Z.of_nat (length out) - Z.of_nat (length chunks)) * (size - overlap)
    <= Z.max (len text - i) 0 + (size - overlap) - 1.
Proof.
  intros Hgo. induction fuel as [|fuel IH]; intros i chunks out H;
    [discriminate|].
  simpl in H. destruct (Z.ltb_spec i (len text)) as [Hlt|Hge].
  - set (acc := if truthy (trim (slice text i (i + size)))
                then chunks ++ [trim (slice text i (i + size))]
                else chunks) in *.
    pose proof (splitText_loop_extends _ _ _ _ _ _ _ H) as [more Hm].
    apply IH in H.
    assert (Hl : Z.of_nat (length acc) <= Z.of_nat (length chunks) + 1).
    { unfold acc. destruct (truthy _); [rewrite length_app; simpl|]; lia. }
    assert (Hout : Z.of_nat (length acc) <= Z.of_nat (length out)).
    { rewrite Hm, length_app. lia. }
    clearbody acc.
    destruct (Z.le_gt_cases 0 (len text - (i + (size - overlap)))).
    + rewrite Z.max_l in H by lia. rewrite Z.max_l by lia. nia.
    + rewrite Z.max_r in H by lia. rewrite Z.max_l by lia.
      assert (Z.of_nat (length out) - Z.of_nat (length acc) = 0) by nia.
      nia.
  - injection H as <-. rewrite Z.max_r by lia. lia.
Qed.

(** X18: There are no more chunks than windows: at most the text length divided
    by the stride, rounded up. *)
Theorem chunk_count_bound (fuel : nat) (chunks : list jsstring) :
  0 < size - overlap ->
  splitText fuel text size overlap = Some (Normal chunks) ->
  Z.of_nat (length chunks) <=
  (len text + (size - overlap) - 1) / (size - overlap).
Proof.
  intros Hgo H. apply (splitText_loop_count Hgo) in H. simpl in H.
  apply Z.div_le_lower_bound; [exact Hgo|].
  assert (0 <= len text) by (unfold len; lia).
  rewrite Z.max_l in H by lia. lia.
Qed.

Lemma rejoin_snoc (k : nat) (acc : list jsstring) (c : jsstring) :
  acc <> [] -> rejoin k (acc ++ [c]) = rejoin k acc ++ skipn k c.
Proof.
  destruct acc as [|a acc]; [congruence|]. intros _. simpl.
  rewrite map_app, concat_app. simpl. rewrite app_nil_r. apply app_assoc.
Qed.

Lemma firstn_add {A} (a b : nat) (l : list A) :
  firstn a l ++ firstn b (skipn a l) = firstn (a + b) l.
Proof.
  revert l. induction a as [|a IH]; intros [|x l]; simpl;
    rewrite ?firstn_nil; try reflexivity.
  now rewrite IH.
Qed.

(** While the text holds no white space, the chunks collected so far
    rejoin to the part of the text the windows have covered. *)
Lemma splitText_loop_rejoin :
  0 <= overlap -> overlap < size -> solid text = true ->
  forall fuel i acc out,
    splitText_loop fuel text size overlap i acc = Some (Normal out) ->
    (i = 0 /\ acc = []) \/
    (0 < i /\ acc <> [] /\
     rejoin (Z.to_nat overlap) acc = firstn (Z.to_nat (i + overlap)) text) ->
    rejoin (Z.to_nat overlap) out = text.
Proof.
  intros Hov Hsz Hsolid.
  induction fuel as [|fuel IH]; intros i acc out H Inv; [discriminate|].
  simpl in H. destruct (Z.ltb_spec i (len text)) as [Hlt|Hge].
  - assert (Hi : 0 <= i) by (destruct Inv as [[-> _]|[Hp _]]; lia).
    rewrite slice_window in H by lia.
    set (chunk := firstn (Z.to_nat size) (skipn (Z.to_nat i) text)) in *.
    assert (Hinf : infix chunk text).
    { exists (firstn (Z.to_nat i) text),
             (skipn (Z.to_nat size) (skipn (Z.to_nat i) text)).
      unfold chunk. now rewrite (firstn_skipn (Z.to_nat size)), firstn_skipn. }
    rewrite (trim_solid chunk (solid_infix _ _ Hinf Hsolid)) in H.
    assert (Hne : truthy chunk = true).
    { apply truthy_true. intros E. apply (f_equal (@length N)) in E.
      unfold chunk in E. rewrite length_firstn, length_skipn in E.
      unfold len in Hlt. simpl in E. lia. }
    rewrite Hne in H. apply IH in H; [exact H|].
    right. split; [lia|]. split; [now destruct acc|].
    destruct Inv as [[-> ->]|(Hp & Hacc & Hr)].
    + simpl. rewrite app_nil_r. unfold chunk. simpl. f_equal. lia.
    + rewrite (rejoin_snoc _ _ _ Hacc), Hr. unfold chunk.
      rewrite skipn_firstn_comm, skipn_skipn.
      replace (Z.to_nat overlap + Z.to_nat i)%nat
        with (Z.to_nat (i + overlap)) by lia.
      rewrite firstn_add. f_equal. lia.
  - injection H as <-.
    destruct Inv as [[-> ->]|(Hp & Hacc & Hr)].
    + simpl. unfold len in Hge. destruct text; [reflexivity | simpl in Hge; lia].
    + rewrite Hr. apply firstn_all2. unfold len in Hge. lia.
Qed.

(** X19: Round trip: a text without white space is recovered from its chunks
    by dropping from every chunk but the first the [overlap] code units it
    repeats. *)
Theorem rejoin_recovers_solid_text (fuel : nat) (chunks : list jsstring) :
  0 <= overlap -> overlap < size -> solid text = true ->
  splitText fuel text size overlap = Some (Normal chunks) ->
  rejoin (Z.to_nat overlap) chunks = text.
Proof.
  intros Hov Hsz Hsolid H.
  apply (splitText_loop_rejoin Hov Hsz Hsolid fuel 0 [] chunks H).
  now left.
Qed.

End ChunkerMore.

Lemma chunks_are_trimmed_pieces_witness :
  Forall (fun c => c <> [] /\ trim c = c /\ infix c [97; 32; 98; 99]%N /\
                   (0 <= 3 -> len c <= 3))
    [[97; 32; 98]%N; [98; 99]%N].
Proof.
  apply (chunks_are_trimmed_pieces [97; 32; 98; 99]%N 3 1 5). reflexivity.
Defined.

Lemma chunk_count_bound_witness :
  Z.of_nat (length [Chunker.text_ab; Chunker.text_b]) <=
  (len Chunker.text_ab + (3 - 2) - 1) / (3 - 2).
Proof.
  apply (chunk_count_bound Chunker.text_ab 3 2 3); [lia | reflexivity].
Defined.

Lemma rejoin_recovers_solid_text_witness :
  Chunker.rejoin (Z.to_nat 2) [Chunker.text_ab; Chunker.text_b] =
  Chunker.text_ab.
Proof.
  apply (rejoin_recovers_solid_text Chunker.text_ab 3 2 3);
    [lia | lia | reflexivity | reflexivity].
Defined.

(** ** The sample script: [setup-pinecone-data.ts] *)

Section SampleScript.

Import Script SetupSample.

Variable w : world.



(** One call of [embedText]: the call it makes, and its result. *)
Lemma embedText_run (text : jsstring) (h : history) :
  exists r, embedText w text h = (r, [Embed text]).
Proof.
  unfold embedText, bind, ask, first_embedding.
  destruct (embeddings_create w h text) as [[|v rest]|e]; simpl;
    eexists; reflexivity.
Qed.

(** The embedding loop stops at the first failure; when it ends normally
    every document has been embedded once, in order, and has its record. *)
Lemma embed_documents_run (docs : list Document) :
  forall vectors h r made,
    embed_documents w docs vectors h = (r, made) ->
    (exists e k,
        r = Throw e /\ made = map Embed (firstn k (map doc_text docs))) \/
    (exists news,
        r = Normal (vectors ++ news) /\
        made = map Embed (map doc_text docs) /\
        map id news = map doc_id docs /\
        map r_text news = map doc_text docs /\
        map r_source news = map doc_source docs).
Proof.
  induction docs as [|doc rest IH]; intros vectors h r made H.
  - injection H as <- <-. right. exists []. rewrite app_nil_r. repeat split.
  - simpl in H. unfold bind at 1 in H.
    destruct (embedText_run (doc_text doc) h) as [r1 Hr]. rewrite Hr in H.
    destruct r1 as [v|e].
    + destruct (embed_documents w rest _ _) as [r2 more] eqn:E.
      injection H as <- <-.
      apply IH in E as [(e & k & -> & ->) | (news & -> & -> & Hi & Ht & Hs)].
      * left. exists e, (S k). split; reflexivity.
      * right. eexists (_ :: news). rewrite <- app_assoc.
        split; [reflexivity|]. split; [reflexivity|].
        simpl. now rewrite Hi, Ht, Hs.
    + injection H as <- <-. left. exists e, 1%nat. simpl.
      now rewrite ?firstn_O.
Qed.

Lemma uploadDocuments_of_run (docs : list Document) (h : history) r made :
  uploadDocuments_of w docs h = (r, made) ->
  (exists e k,
      r = Throw e /\ made = map Embed (firstn k (map doc_text docs))) \/
  (exists vectors,
      made = map Embed (map doc_text docs) ++ [Upsert vectors] /\
      map id vectors = map doc_id docs /\
      map r_text vectors = map doc_text docs /\
      map r_source vectors = map doc_source docs /\
      r = upsert w (h ++ map Embed (map doc_text docs)) vectors).
Proof.
  unfold uploadDocuments_of, catch, bind at 1.
  destruct (embed_documents w docs [] h) as [r1 made1] eqn:E.
  apply embed_documents_run in E
    as [(e & k & -> & ->) | (news & -> & -> & Hi & Ht & Hs)].
  - unfold raise. cbv beta iota zeta. rewrite app_nil_r.
    intros [= <- <-]. left. now exists e, k.
  - unfold ask. cbv beta iota zeta. rewrite app_nil_l.
    destruct (upsert w (h ++ map Embed (map doc_text docs)) news)
      as [[]|e] eqn:U; unfold raise; cbv beta iota zeta;
      rewrite ?app_nil_r; intros [= <- <-]; right; exists news;
      repeat split; auto.
Qed.

(** X25: All or nothing: [uploadDocuments] either stops while embedding,
    having upserted nothing, or has embedded every document once, in
    order, and then makes its one upsert call, with one record for each
    document: its id, its text, its source. *)
Theorem upload_is_one_upsert (docs : list Document) (h : history) :
  let (r, made) := uploadDocuments_of w docs h in
  (exists e k,
      r = Throw e /\ made = map Embed (firstn k (map doc_text docs))) \/
  (exists vectors,
      made = map Embed (map doc_text docs) ++ [Upsert vectors] /\
      map id vectors = map doc_id docs /\
      map r_text vectors = map doc_text docs /\
      map r_source vectors = map doc_source docs /\
      r = upsert w (h ++ map Embed (map doc_text docs)) vectors).
Proof.
  destruct (uploadDocuments_of w docs h) as [r made] eqn:E.
  exact (uploadDocuments_of_run docs h r made E).
Qed.

(** The index is created only when the listing does not hold it, with
    1536 dimensions and the cosine metric, and a wait of ten seconds
    follows a creation only; an index that is listed costs one listing. *)
Theorem setup_creates_only_unlisted (h : history) :
  let (r, made) := setupPineconeIndex w h in
  match listIndexes w h with
  | Throw e => r = Throw e /\ made = [ListIndexes]
  | Normal indexes =>
      if listed knowledge_base indexes
      then r = Normal tt /\ made = [ListIndexes]
      else
        match createIndex w (h ++ [ListIndexes]) with
        | Throw e =>
            r = Throw e /\
            made = [ListIndexes; CreateIndex knowledge_base 1536 cosine]
        | Normal _ =>
            r = Normal tt /\
            made = [ListIndexes; CreateIndex knowledge_base 1536 cosine;
                    Wait 10000]
        end
  end.
Proof.
  unfold setupPineconeIndex, catch, bind, ask, raise, ret.
  destruct (listIndexes w h) as [indexes|e]; [|now split].
  destruct (listed knowledge_base indexes); simpl; [now split|].
  destruct (createIndex w (h ++ [ListIndexes])) as [[]|e]; now split.
Qed.

End SampleScript.

Section SampleMain.

Import Script SetupSample.

Variable w : world.

Lemma setupPineconeIndex_calls (h : history) :
  Forall setup_call (snd (setupPineconeIndex w h)).
Proof.
  unfold setupPineconeIndex, catch, bind, ask, raise, ret.
  destruct (listIndexes w h) as [indexes|e]; simpl;
    [|repeat constructor].
  destruct (listed knowledge_base indexes); simpl; [repeat constructor|].
  destruct (createIndex w (h ++ [ListIndexes])) as [[]|e]; simpl;
    repeat constructor.
Qed.

(** X26: [main] never throws, and its calls take one of five courses: after
    the calls of the setup it exits with code 1 at once (the setup
    failed), while embedding (nothing has been upserted), after the
    upsert, after the check of the statistics, or it does not exit at
    all, and then it has embedded the five sample texts in order,
    upserted their five records in one call and checked the statistics. *)
Theorem main_exits_or_verifies (h : history) :
  let (r, made) := main w h in
  let texts := map doc_text SAMPLE_DOCUMENTS in
  r = Normal tt /\
  exists setup work,
    made = setup ++ work /\ Forall setup_call setup /\
    (work = [Exit 1] \/
     (exists k, work = map Embed (firstn k texts) ++ [Exit 1]) \/
     (exists vectors,
        map id vectors = map doc_id SAMPLE_DOCUMENTS /\
        length vectors = 5%nat /\
        (work = map Embed texts ++ [Upsert vectors; Exit 1] \/
         work = map Embed texts ++
                [Upsert vectors; DescribeIndexStats; Exit 1] \/
         work = map Embed texts ++ [Upsert vectors; DescribeIndexStats]))).
Proof.
  unfold main, uploadDocuments.
  assert (Hfive : length SAMPLE_DOCUMENTS = 5%nat) by reflexivity.
  revert Hfive. generalize SAMPLE_DOCUMENTS as docs. intros docs Hfive.
  unfold catch. unfold bind at 1.
  pose proof (setupPineconeIndex_calls h) as Hs.
  destruct (setupPineconeIndex w h) as [[[]|e] setup]; simpl in Hs.
  2:{ unfold ask. cbv beta iota zeta. split; [reflexivity|].
      exists setup, [Exit 1]. repeat split; auto. }
  unfold bind at 1.
  destruct (uploadDocuments_of w docs (h ++ setup)) as [r made] eqn:E.
  apply (uploadDocuments_of_run w) in E
    as [(e & k & -> & ->) | (vectors & -> & Hi & _ & _ & Hr)].
  { unfold ask. cbv beta iota zeta. split; [reflexivity|].
    exists setup, (map Embed (firstn k (map doc_text docs)) ++ [Exit 1]).
    split; [now rewrite <- app_assoc|]. split; [exact Hs|].
    right. left. now exists k. }
  assert (Hl : length vectors = 5%nat).
  { apply (f_equal (@length jsstring)) in Hi. rewrite !length_map in Hi.
    congruence. }
  clear Hr. destruct r as [[]|e].
  2:{ unfold ask. cbv beta iota zeta. split; [reflexivity|].
      exists setup, (map Embed (map doc_text docs) ++ [Upsert vectors; Exit 1]).
      split; [rewrite <- !app_assoc; reflexivity|]. split; [exact Hs|].
      right. right. exists vectors. split; [exact Hi|]. split; [exact Hl|].
      left. reflexivity. }
  unfold verifyData, catch, ask, raise. cbv beta iota zeta.
  destruct (describeIndexStats w _) as [[]|e]; cbv beta iota zeta;
    (split; [reflexivity|]).
  - exists setup,
      (map Embed (map doc_text docs) ++ [Upsert vectors; DescribeIndexStats]).
    split; [rewrite <- !app_assoc; reflexivity|]. split; [exact Hs|].
    right. right. exists vectors. split; [exact Hi|]. split; [exact Hl|].
    right. right. reflexivity.
  - exists setup,
      (map Embed (map doc_text docs) ++
       [Upsert vectors; DescribeIndexStats; Exit 1]).
    split; [rewrite <- !app_assoc; reflexivity|]. split; [exact Hs|].
    right. right. exists vectors. split; [exact Hi|]. split; [exact Hl|].
    right. left. reflexivity.
Qed.

End SampleMain.

(** ** The folder script: [setup-pinecone-data copy.js] *)

Section RecordIds.

Import Ingest.

Lemma digits_inj (a b : Decimal.uint) : digits a = digits b -> a = b.
Proof.
  revert b. induction a; intros [] H; simpl in H;
    try discriminate; try reflexivity;
    injection H as H; f_equal; now apply IHa.
Qed.

Lemma of_nat_inj (a b : nat) : of_nat a = of_nat b -> a = b.
Proof.
  unfold of_nat. intros H. apply digits_inj in H.
  now apply DecimalNat.Unsigned.to_uint_inj.
Qed.

Lemma digits_no_underscore (d : Decimal.uint) : ~ In 95%N (digits d).
Proof.
  induction d; simpl; [tauto|..]; intros [H|H];
    (discriminate || now apply IHd).
Qed.

Lemma split_at_last (sep : N) (s1 s2 t1 t2 : jsstring) :
  ~ In sep t1 -> ~ In sep t2 ->
  s1 ++ sep :: t1 = s2 ++ sep :: t2 -> s1 = s2 /\ t1 = t2.
Proof.
  intros H1 H2. revert s2.
  induction s1 as [|a s1 IH]; intros [|b s2] H; simpl in H.
  - injection H as H. now split.
  - injection H as <- H. exfalso. apply H1. rewrite H.
    apply in_or_app. right. now left.
  - injection H as -> H. exfalso. apply H2. rewrite <- H.
    apply in_or_app. right. now left.
  - injection H as -> H. apply IH in H as [-> ->]. now split.
Qed.

Lemma record_id_injective_stem (stem : jsstring) (i1 i2 : nat) :
  record_id stem i1 = record_id stem i2 -> i1 = i2.
Proof.
  unfold record_id. intros H. apply app_inv_head in H.
  apply app_inv_head in H. apply of_nat_inj in H. lia.
Qed.

(** X20: A record id tells the stem of its file and the place of its chunk:
    two ids are equal only for the same stem and the same chunk index. *)
Theorem record_id_injective (stem1 stem2 : jsstring) (i1 i2 : nat) :
  record_id stem1 i1 = record_id stem2 i2 -> stem1 = stem2 /\ i1 = i2.
Proof.
  unfold record_id, underscore. simpl. intros H.
  apply split_at_last in H as [Hs Hd];
    try apply digits_no_underscore.
  split; [exact Hs|]. apply of_nat_inj in Hd. lia.
Qed.

End RecordIds.

Lemma record_id_injective_witness :
  [97]%N = [97]%N /\ 4%nat = 4%nat.
Proof.
  apply (record_id_injective [97]%N [97]%N 4 4). reflexivity.
Defined.

Section Batches.

Import Script Ingest.

Lemma batches_step (fuel : nat) (v : record) (vs : list record) :
  batches (S fuel) (v :: vs) =
  firstn 100 (v :: vs) :: batches fuel (skipn 100 (v :: vs)).
Proof. reflexivity. Qed.

Lemma batches_nil (fuel : nat) : batches fuel [] = [].
Proof. now destruct fuel. Qed.

Lemma batches_concat (fuel : nat) :
  forall vs, (length vs <= fuel)%nat -> concat (batches fuel vs) = vs.
Proof.
  induction fuel as [|fuel IH]; intros [|v vs] H; try reflexivity.
  - simpl in H. lia.
  - rewrite batches_step. cbn [concat].
    rewrite IH; [apply firstn_skipn|].
    rewrite length_skipn. cbn [length] in *. lia.
Qed.

Lemma batches_sizes (fuel : nat) :
  forall vs,
    Forall (fun b => (1 <= length b <= 100)%nat) (batches fuel vs).
Proof.
  induction fuel as [|fuel IH]; intros [|v vs]; try constructor.
  - rewrite length_firstn. cbn [length]. lia.
  - apply IH.
Qed.

Lemma batches_full (fuel : nat) :
  forall vs, Forall (fun b => length b = 100%nat)
                    (removelast (batches fuel vs)).
Proof.
  induction fuel as [|fuel IH]; intros [|v vs]; try constructor.
  rewrite batches_step.
  destruct (batches fuel (skipn 100 (v :: vs))) as [|b bs] eqn:E.
  - constructor.
  - change (removelast (firstn 100 (v :: vs) :: b :: bs))
      with (firstn 100 (v :: vs) :: removelast (b :: bs)).
    constructor; [|rewrite <- E; apply IH].
    assert (Hs : skipn 100 (v :: vs) <> []).
    { intros S. rewrite S, batches_nil in E. discriminate. }
    rewrite length_firstn.
    assert (length (skipn 100 (v :: vs)) <> 0%nat).
    { intros L. apply Hs. now apply length_zero_iff_nil. }
    rewrite length_skipn in H. cbn [length] in *. lia.
Qed.

End Batches.

Section FolderAccounts.

Import Script Ingest.

Variable n : node.
Variable w : world.

Lemma clean_app (a b : list call) :
  forall h, clean w h (a ++ b) = (clean w h a && clean w (h ++ a) b)%bool.
Proof.
  induction a as [|c a IH]; intros h.
  - cbn. now rewrite app_nil_r.
  - cbn [app clean]. destruct (failure w h c); [reflexivity|].
    rewrite IH, <- app_assoc. reflexivity.
Qed.

Lemma accounted_ret {A} (a : A) : accounted w (ret a).
Proof. intros h r made [= <- <-]. reflexivity. Qed.

Lemma accounted_bind {A B} (m : M A) (k : A -> M B) :
  accounted w m -> (forall a, accounted w (k a)) -> accounted w (bind m k).
Proof.
  intros Hm Hk h r made H. unfold bind in H.
  destruct (m h) as [[a|e] made1] eqn:E1; apply Hm in E1.
  - destruct (k a (h ++ made1)) as [r2 made2] eqn:E2. injection H as <- <-.
    apply Hk in E2. destruct r2 as [b|e].
    + now rewrite clean_app, E1, E2.
    + destruct E2 as (pre & c & -> & Hc & Hf).
      exists (made1 ++ pre), c. rewrite app_assoc. split; [reflexivity|].
      rewrite clean_app, E1, Hc. split; [reflexivity|].
      now rewrite app_assoc.
  - injection H as <- <-. exact E1.
Qed.

Lemma accounted_ask {A} (c : call) (answer : history -> completion A) :
  (forall h, failure w h c =
             match answer h with Throw e => Some e | Normal _ => None end) ->
  accounted w (ask c answer).
Proof.
  intros Hf h r made [= <- <-]. specialize (Hf h).
  destruct (answer h) as [a|e].
  - cbn. now rewrite Hf.
  - exists [], c. rewrite app_nil_r. repeat split. exact Hf.
Qed.





Lemma upsert_from_accounted (vs : list record) :
  forall fuel i, accounted w (upsert_from w fuel vs i).
Proof.
  induction fuel as [|fuel IH]; intros i; cbn [upsert_from].
  - apply accounted_ret.
  - destruct (Nat.ltb i (length vs)); [|apply accounted_ret].
    cbv zeta. apply accounted_bind; [|intros _; apply IH].
    apply accounted_ask. reflexivity.
Qed.



Lemma map_Upsert_snoc (l : list (list record)) (pre : list call) (c : call) :
  map Upsert l = pre ++ [c] ->
  exists l' b, l = l' ++ [b] /\ pre = map Upsert l' /\ c = Upsert b.
Proof.
  intros H. apply map_eq_app in H as (l1 & l2 & -> & <- & H2).
  destruct l2 as [|b [|]]; try discriminate. injection H2 as <-.
  now exists l1, b.
Qed.

End FolderAccounts.

Section FolderScript.

Import Script Ingest.

Variable n : node.
Variable w : world.

Lemma upsert_from_run (vs : list record) :
  forall fuel i h r made,
    (length vs - i <= fuel)%nat ->
    upsert_from w fuel vs i h = (r, made) ->
    exists k,
      made = map Upsert (firstn k (batches fuel (skipn i vs))) /\
      (r = Normal tt -> made = map Upsert (batches fuel (skipn i vs))).
Proof.
  induction fuel as [|fuel IH]; intros i h r made Hf H.
  - injection H as <- <-. exists 0%nat. split; reflexivity.
  - cbn [upsert_from] in H.
    destruct (Nat.ltb_spec i (length vs)) as [Hlt|Hge].
    + destruct (skipn i vs) as [|x xs] eqn:Hskip.
      { apply (f_equal (@length record)) in Hskip.
        rewrite length_skipn in Hskip. simpl in Hskip. lia. }
      rewrite batches_step.
      assert (Hnext : skipn (i + 100) vs = skipn 100 (x :: xs)).
      { rewrite <- Hskip, skipn_skipn. f_equal. lia. }
      rewrite <- Hnext.
      unfold bind, ask in H.
      destruct (upsert w h (firstn 100 (x :: xs))) as [[]|e].
      * destruct (upsert_from w fuel vs (i + 100) _) as [r2 more] eqn:E.
        injection H as <- <-.
        apply IH in E as [k [-> Hall]]; [|lia].
        exists (S k). split; [reflexivity|].
        intros Hr. cbn [map app]. f_equal. now apply Hall.
      * injection H as <- <-. exists 1%nat. split; [|discriminate].
        cbn [firstn map]. reflexivity.
    + injection H as <- <-. rewrite skipn_all2 by lia.
      exists 0%nat. rewrite batches_nil. split; reflexivity.
Qed.

Lemma removelast_firstn_full {A} (P : A -> Prop) (l : list A) (k : nat) :
  Forall P (removelast l) -> Forall P (removelast (firstn k l)).
Proof.
  revert k. induction l as [|a l IH]; intros [|k] H; try constructor.
  cbn [firstn]. destruct l as [|b l].
  - rewrite firstn_nil. constructor.
  - change (removelast (a :: b :: l)) with (a :: removelast (b :: l)) in H.
    inversion H as [|? ? Ha Hl]; subst.
    destruct k as [|k]; [constructor|].
    change (removelast (a :: firstn (S k) (b :: l)))
      with (a :: removelast (firstn (S k) (b :: l))).
    constructor; [exact Ha | now apply IH].
Qed.

(** X21: The records go to the vector store in consecutive batches, each of at
    least 1 and at most 100 records and each but the last of exactly 100.
    The loop stops at the first upsert that the store refuses: it then
    throws what that upsert threw, every batch before it was accepted and
    no batch follows it.  When the store accepts every batch the loop
    returns and the batches add up to all the records, in order. *)
Theorem upsert_in_batches_of_100 (vs : list record) (h : history) :
  let (r, made) := upsert_from w (length vs) vs 0 h in
  exists stored rest,
    made = map Upsert stored /\
    vs = concat stored ++ rest /\
    Forall (fun b => (1 <= length b <= 100)%nat) stored /\
    Forall (fun b => length b = 100%nat) (removelast stored) /\
    (r = Normal tt -> rest = []) /\
    match r with
    | Normal _ => rest = [] /\ clean w h (map Upsert stored) = true
    | Throw e =>
        exists accepted refused,
          stored = accepted ++ [refused] /\
          clean w h (map Upsert accepted) = true /\
          upsert w (h ++ map Upsert accepted) refused = Throw e
    end.
Proof.
  destruct (upsert_from w (length vs) vs 0 h) as [r made] eqn:E.
  pose proof (upsert_from_accounted w vs _ _ _ _ _ E) as Hacc.
  apply upsert_from_run in E as [k [-> Hall]]; [|lia].
  cbn [skipn] in *.
  exists (firstn k (batches (length vs) vs)),
         (concat (skipn k (batches (length vs) vs))).
  split; [reflexivity|]. split.
  { rewrite <- concat_app, firstn_skipn. symmetry.
    now apply batches_concat. }
  split.
  { apply Forall_forall. intros b Hb.
    pose proof (batches_sizes (length vs) vs) as Hs.
    rewrite Forall_forall in Hs. apply Hs.
    rewrite <- (firstn_skipn k). apply in_or_app. now left. }
  split; [apply removelast_firstn_full, batches_full|].
  assert (Hrest : r = Normal tt ->
                  concat (skipn k (batches (length vs) vs)) = []).
  { intros Hr. specialize (Hall Hr).
    assert (Hk : firstn k (batches (length vs) vs) = batches (length vs) vs).
    { revert Hall. generalize (batches (length vs) vs) as l. clear.
      intros l. revert k. induction l as [|b l IH]; intros [|k] H;
        try reflexivity; try discriminate.
      cbn [firstn map] in *. injection H as H. f_equal. now apply IH. }
    rewrite <- (firstn_skipn k (batches (length vs) vs)) in Hk at 2.
    rewrite <- (app_nil_r (firstn k _)) in Hk at 1.
    apply app_inv_head in Hk. now rewrite <- Hk. }
  split; [exact Hrest|].
  destruct r as [[]|e].
  - split; [now apply Hrest | exact Hacc].
  - destruct Hacc as (pre & c & Hm & Hc & Hf).
    apply map_Upsert_snoc in Hm as (accepted & refused & Hs & -> & ->).
    exists accepted, refused. split; [exact Hs|]. split; [exact Hc|].
    cbn [failure] in Hf.
    destruct (upsert w (h ++ map Upsert accepted) refused);
      [discriminate | now injection Hf as ->].
Qed.

Lemma embed_run (text : jsstring) (h : history) :
  exists r, embed w text h = (r, [Embed text]).
Proof.
  unfold embed, bind, ask, first_embedding.
  destruct (embeddings_create w h text) as [[|v rest]|e]; cbn;
    eexists; reflexivity.
Qed.

Lemma embed_chunks_run (file : jsstring) (chunks : list jsstring) :
  forall i vectors h r made,
    embed_chunks n w file chunks i vectors h = (r, made) ->
    (exists e k, r = Throw e /\ made = map Embed (firstn k chunks)) \/
    (exists news,
        r = Normal (vectors ++ news) /\
        made = map Embed chunks /\
        map id news =
          map (record_id (parse_name n file)) (seq i (length chunks)) /\
        map r_text news = chunks /\
        Forall (fun rec => r_source rec = file) news).
Proof.
  induction chunks as [|chunk rest IH]; intros i vectors h r made H.
  - injection H as <- <-. right. exists []. rewrite app_nil_r.
    repeat split. constructor.
  - cbn [embed_chunks] in H. unfold bind at 1 in H.
    destruct (embed_run chunk h) as [r1 Hr]. rewrite Hr in H.
    destruct r1 as [v|e].
    + destruct (embed_chunks n w file rest _ _ _) as [r2 more] eqn:E.
      injection H as <- <-.
      apply IH in E
        as [(e & k & -> & ->) | (news & -> & -> & Hi & Ht & Hs)].
      * left. exists e, (S k). split; reflexivity.
      * right. eexists (_ :: news). rewrite <- app_assoc.
        split; [reflexivity|]. split; [reflexivity|].
        cbn [map seq length r_text id]. rewrite Hi, Ht.
        repeat split. constructor; [reflexivity | exact Hs].
    + injection H as <- <-. left. exists e, 1%nat.
      split; reflexivity.
Qed.

(** X22: One file, when every embedding succeeds: each chunk is embedded once,
    in order, and gets one record, with the chunk as its text, the file
    name as its source and the id [stem_1], [stem_2], ...; the ids of one
    file are pairwise distinct. *)
Theorem embed_chunks_records (file : jsstring) (chunks : list jsstring)
    (vectors : list record) (h : history) (out : list record)
    (made : list call) :
  embed_chunks n w file chunks 0 vectors h = (Normal out, made) ->
  made = map Embed chunks /\
  exists news,
    out = vectors ++ news /\
    map r_text news = chunks /\
    Forall (fun rec => r_source rec = file) news /\
    map id news =
      map (fun i => parse_name n file ++ [95]%N ++ of_nat (i + 1))
          (seq 0 (length chunks)) /\
    NoDup (map id news).
Proof.
  intros H. apply embed_chunks_run in H
    as [(e & k & He & _) | (news & [= ->] & -> & Hi & Ht & Hs)];
    [discriminate|].
  split; [reflexivity|]. exists news.
  split; [reflexivity|]. split; [exact Ht|]. split; [exact Hs|].
  split; [exact Hi|].
  rewrite Hi. apply Injective_map_NoDup; [|apply seq_NoDup].
  intros a b Hab. now apply record_id_injective_stem in Hab.
Qed.

End FolderScript.

Section FolderRun.

Import Script Ingest.

Variable n : node.
Variable w : world.







End FolderRun.

Section FolderPhases.

Import Script Ingest.

Variable n : node.
Variable w : world.




End FolderPhases.

(** *** The folder script on a small folder *)

Section FolderExamples.

Import Script Ingest.

Example script_on_one_file :
  script ex_node ex_world [] =
  (Normal tt,
   [ListIndexes; ReadDir DOCUMENTS_FOLDER;
    ReadTXT (DOCUMENTS_FOLDER ++ [47]%N ++ ex_file);
    Embed ex_text;
    Upsert [{| id := [97; 95; 49]%N; values := [1 # 2]%Q;
               r_source := ex_file; r_text := ex_text |}]]).
Proof. reflexivity. Qed.

(** The same folder when the store refuses the upsert: the run ends with
    [process.exit(1)] right after it. *)
Example script_on_refused_upsert :
  script ex_node ex_world_full [] =
  (Normal tt,
   [ListIndexes; ReadDir DOCUMENTS_FOLDER;
    ReadTXT (DOCUMENTS_FOLDER ++ [47]%N ++ ex_file);
    Embed ex_text;
    Upsert [{| id := [97; 95; 49]%N; values := [1 # 2]%Q;
               r_source := ex_file; r_text := ex_text |}];
    Exit 1]).
Proof. reflexivity. Qed.

Lemma embed_chunks_records_witness :
  snd (embed_chunks ex_node ex_world ex_file ex_chunks 0 [] []) =
    map Embed ex_chunks /\
  exists news,
    match fst (embed_chunks ex_node ex_world ex_file ex_chunks 0 [] []) with
    | Normal out => out
    | Throw _ => []
    end = [] ++ news /\
    map r_text news = ex_chunks.
Proof.
  destruct (embed_chunks_records ex_node ex_world ex_file ex_chunks [] []
              match fst (embed_chunks ex_node ex_world ex_file ex_chunks
                           0 [] []) with
              | Normal out => out
              | Throw _ => []
              end
              (snd (embed_chunks ex_node ex_world ex_file ex_chunks 0 [] []))
              eq_refl)
    as (Hm & news & Ho & Ht & _).
  split; [exact Hm|]. exists news. split; [exact Ho | exact Ht].
Defined.

End FolderExamples.

(** The chunks the folder script works with are those of [splitText],
    however long its loop is given. *)
Lemma chunks_of_adequate (text : jsstring) (fuel : nat) :
  (length text < fuel)%nat ->
  Chunker.splitText_main fuel text = Some (Normal (Ingest.chunks_of text)).
Proof.
  intros Hf. destruct (splitText_main_terminates text) as [chunks H].
  unfold Ingest.chunks_of. rewrite (H (S (length text))) by lia.
  now apply H.
Qed.
